(** * NotebookKernelExecution (src/kernels/kernelExecution.ts)

    A shallow embedding of the lifecycle coordinator of the kernel
    execution layer: the per-document execution queue map, the
    interrupt / cancel / restart hooks, the caller-facing cell and code
    execution entry points, the streaming generator of [executeCode] and
    the visible execution count.

    Objects are modelled by references (natural numbers) into explicit
    stores, promises by the events that lead to their settlement together
    with the way they settle, and [async] functions by a small state and
    error monad that records every call made on a collaborator. *)

From stdpp Require Import gmap strings list fin_maps.
From Stdlib Require Import ZArith Lia.

Open Scope Z_scope.
Open Scope nat_scope.
Open Scope string_scope.
Open Scope list_scope.

(** ** Values of the host (vscode, jupyterlab) *)

(** Object identity: documents, sessions and queues are compared with
    [===], so each is a reference. *)
Abbreviation NotebookDocument := nat (only parsing).
Abbreviation IKernelSession := nat (only parsing).
Abbreviation QueueRef := nat (only parsing).
Abbreviation Error := string (only parsing).
Abbreviation NotebookCellOutput := nat (only parsing).

(** [NotebookCellKind] of vscode. *)
Inductive NotebookCellKind := Markup | Code.

(** [NotebookCellExecutionState] of
    platform/notebooks/cellExecutionStateService. *)
Inductive NotebookCellExecutionState := Idle | Pending | Executing.

(** The fields of a [NotebookCell] that this file reads.
    [executionOrder] is [cell.executionSummary?.executionOrder]:
    [None] when the summary or the order is undefined. *)
Record NotebookCell := mkCell {
  index : nat;
  kind : NotebookCellKind;
  cell_notebook : NotebookDocument;
  executionOrder : option Z
}.

#[global] Instance NotebookCellKind_eq_dec : EqDecision NotebookCellKind.
Proof. solve_decision. Defined.
#[global] Instance NotebookCellExecutionState_eq_dec :
  EqDecision NotebookCellExecutionState.
Proof. solve_decision. Defined.
#[global] Instance NotebookCell_eq_dec : EqDecision NotebookCell.
Proof. solve_decision. Defined.

(** A settled promise: [Fulfilled v] or [Rejected e]. *)
Inductive outcome (A : Type) : Type :=
| Fulfilled (v : A)
| Rejected (e : Error).
Arguments Fulfilled {A} v.
Arguments Rejected {A} e.

Definition is_fulfilled {A} (o : outcome A) : bool :=
  match o with Fulfilled _ => true | Rejected _ => false end.

(** The argument of [kernel.start]: [new DisplayOptions(disableUI)] or
    [new StartOptions(disableUI, ignoreTriggeringPostInitHooks)]. *)
Inductive StartArgument :=
| NoArgument
| DisplayOptions (disableUI : bool)
| StartOptions (disableUI : bool) (ignoreTriggeringPostInitHooks : bool).

(** [ResumeCellExecutionInformation] is passed through unread. *)
Abbreviation ResumeCellExecutionInformation := nat (only parsing).

(** The handle [ICodeExecution] of a code execution, named by the way
    it was obtained: [CodeExecution.fromCode(code, extensionId)] or
    [executionQueue.queueCode(code, extensionId, token)]. *)
Inductive ICodeExecution :=
| fromCode (code extensionId : string)
| queueCode (q : QueueRef) (code extensionId : string).

(** ** Calls on collaborators *)

(** Calls (and one property read) that hand back a promise. *)
Inductive Call :=
| Restarting                                (* this.kernel.restarting *)
| Start (a : StartArgument)                 (* this.kernel.start(a) *)
| GivenSession                              (* the sessionPromise a hook receives *)
| Cancel (q : QueueRef) (forced : option bool)
| WaitForCompletion (q : QueueRef) (cell : option NotebookCell)
| ExecuteSilently (session : IKernelSession) (code : string).

(** Calls that return at once. *)
Inductive Action :=
| TraceCellMessage (cell : NotebookCell) (message : string)
| Log (message : string)
| SendKernelTelemetryEvent (name : string)
| ResumeCell (q : QueueRef) (cell : NotebookCell)
    (info : ResumeCellExecutionInformation)
| QueueCell (q : QueueRef) (cell : NotebookCell) (codeOverride : option string)
| Created (e : ICodeExecution)
| StartExecution (e : ICodeExecution) (session : IKernelSession)
| Subscribed (e : ICodeExecution) (signal : string)
| IOPubConnect (session : IKernelSession).

(** What an observer of the collaborators sees, in order. *)
Inductive Event :=
| Invoked (c : Call)              (* the call is made, a promise comes back *)
| Settled (c : Call) (ok : bool)  (* the reactions this file put on that
                                     promise run *)
| Did (a : Action)
| Finished (ok : bool).           (* the async function's own promise is
                                     resolved or rejected *)

#[global] Instance StartArgument_eq_dec : EqDecision StartArgument.
Proof. solve_decision. Defined.
#[global] Instance ICodeExecution_eq_dec : EqDecision ICodeExecution.
Proof. solve_decision. Defined.
#[global] Instance Call_eq_dec : EqDecision Call.
Proof. solve_decision. Defined.
#[global] Instance Action_eq_dec : EqDecision Action.
Proof. solve_decision. Defined.
#[global] Instance Event_eq_dec : EqDecision Event.
Proof. solve_decision. Defined.

(** A promise value.  [pending] lists what still happens, once somebody
    reacts to it, before it settles; [settles] is how it settles;
    [promise_id] is its identity. *)
Record Promise (A : Type) := mkPromise {
  promise_id : nat;
  pending : list Event;
  settles : outcome A
}.
Arguments mkPromise {A} _ _ _.
Arguments promise_id {A} _.
Arguments pending {A} _.
Arguments settles {A} _.

(** ** The execution queue, as far as the coordinator looks into it *)

Record CellExecutionQueue := mkQueue {
  q_sessionPromise : nat;   (* identity of the session promise it is bound to *)
  isEmpty : bool;
  failed : bool
}.

(** Modelled from the spec: the constructor of [CellExecutionQueue]
    (./execution/cellExecutionQueue is not among the sources).  A new
    Queue is bound to the session promise it is given, holds no unit and
    has not entered the failed state. *)
Definition new_CellExecutionQueue (sessionPromise : nat) : CellExecutionQueue :=
  {| q_sessionPromise := sessionPromise; isEmpty := true; failed := false |}.

(** Modelled from the spec: [cancel(forced?: boolean)] of the Queue; the
    spec's [forceful] flag of a call that passes no argument is false. *)
Definition forceful (forced : option bool) : bool := default false forced.

(** ** State of a [NotebookKernelExecution] and of the objects it reaches *)

Inductive Disposable :=
| requestListener
| queue_disposable (q : QueueRef)
| closeListener_disposable (document : NotebookDocument) (q : QueueRef)
| iopub_disposable (session : IKernelSession)
| hook_disposable (name : string).

Record State := mkState {
  _visibleExecutionCount : Z;
  documentExecutions : gmap nat nat;            (* document |-> queue *)
  hookedSesions : gset nat;
  disposables : list Disposable;
  notebook : NotebookDocument;                  (* this.notebook *)
  (* objects reached from this one *)
  queues : gmap nat CellExecutionQueue;         (* the queue objects *)
  closeListeners : list (NotebookDocument * QueueRef);
    (* listeners of workspace.onDidCloseNotebookDocument, each closed over
       its [document] and its [newCellExecutionQueue] *)
  promises : nat                                (* promises created so far *)
}.

Definition executionCount (s : State) : Z := _visibleExecutionCount s.

Definition set_visibleExecutionCount (n : Z) (s : State) : State :=
  mkState n (documentExecutions s) (hookedSesions s) (disposables s)
    (notebook s) (queues s) (closeListeners s) (promises s).

Definition new_promise (s : State) : State :=
  mkState (_visibleExecutionCount s) (documentExecutions s) (hookedSesions s)
    (disposables s) (notebook s) (queues s) (closeListeners s)
    (S (promises s)).

(** ** getOrCreateCellExecutionQueue *)

(** [existingExecutionQueue && !existingExecutionQueue.isEmpty &&
    !existingExecutionQueue.failed] *)
Definition can_be_used (s : State) (existingExecutionQueue : option QueueRef)
  : option QueueRef :=
  match existingExecutionQueue with
  | Some q =>
      match queues s !! q with
      | Some o => if negb (isEmpty o) && negb (failed o) then Some q else None
      | None => None
      end
  | None => None
  end.

Definition getOrCreateCellExecutionQueue (s : State)
    (document : NotebookDocument) (sessionPromise : nat) : State * QueueRef :=
  let existingExecutionQueue := documentExecutions s !! document in
  match can_be_used s existingExecutionQueue with
  | Some q => (s, q)
  | None =>
      let newCellExecutionQueue := fresh (dom (queues s)) in
      (mkState (_visibleExecutionCount s)
         (<[document := newCellExecutionQueue]> (documentExecutions s))
         (hookedSesions s)
         (disposables s ++
            [queue_disposable newCellExecutionQueue;
             closeListener_disposable document newCellExecutionQueue])
         (notebook s)
         (<[newCellExecutionQueue := new_CellExecutionQueue sessionPromise]>
            (queues s))
         (closeListeners s ++ [(document, newCellExecutionQueue)])
         (promises s),
       newCellExecutionQueue)
  end.

(** Every [b] in [t] comes after an [a]. *)
Definition precedes (a b : Event) (t : list Event) : Prop :=
  ∀ i, t !! i = Some b → ∃ j, j < i ∧ t !! j = Some a.

(** ** The kernel and the queues, seen from this file *)

(** How the collaborators answer.  Every function of this file makes
    each of these calls at most once, so an answer per call suffices. *)
Record World := mkWorld {
  restarting : outcome unit;                       (* kernel.restarting *)
  start : StartArgument -> outcome IKernelSession; (* kernel.start(..) *)
  cancel : QueueRef -> option bool -> outcome unit;
  waitForCompletion : QueueRef -> option NotebookCell -> outcome unit;
  executeSilently : IKernelSession -> string -> outcome unit;
  session : option IKernelSession;                 (* kernel.session *)
  session_kernel : IKernelSession -> bool;         (* session.kernel is set *)
  connectToLiveRemoteKernel : bool;
    (* kernel.kernelConnectionMetadata.kind === 'connectToLiveRemoteKernel' *)
  isPostInitializedInProgress : bool;
  kernel_notebook : NotebookDocument               (* kernel.notebook *)
}.

(** ** Async functions *)

(** A running async function: the object it works on, the events so
    far, and the promises it derived with [then] or [catch] and has not
    awaited, each with the events that still lead to its settlement. *)
Record Frame := mkFrame {
  self : State;
  trace : list Event;
  floating : list (nat * list Event)
}.

Definition Async (A : Type) : Type := Frame -> Frame * outcome A.

#[global] Instance Async_ret : MRet Async :=
  fun A (a : A) f => (f, Fulfilled a).

#[global] Instance Async_bind : MBind Async :=
  fun A B (k : A -> Async B) (m : Async A) f =>
    match m f with
    | (f', Fulfilled a) => k a f'
    | (f', Rejected e) => (f', Rejected e)
    end.

(** [throw e] *)
Definition throw {A} (e : Error) : Async A := fun f => (f, Rejected e).

(** [try { m } catch (ex) { .. }], the exception kept as a value. *)
Definition attempt {A} (m : Async A) : Async (outcome A) :=
  fun f => let '(f', o) := m f in (f', Fulfilled o).

Definition get_self : Async State := fun f => (f, Fulfilled (self f)).

(** A synchronous method of the object. *)
Definition method {A} (m : State -> State * A) : Async A :=
  fun f => let '(s', a) := m (self f) in
           (mkFrame s' (trace f) (floating f), Fulfilled a).

Definition emit (evs : list Event) : Async unit :=
  fun f => (mkFrame (self f) (trace f ++ evs) (floating f), Fulfilled tt).

Definition do_ (a : Action) : Async unit := emit [Did a].

Definition forget (id : nat) (l : list (nat * list Event))
  : list (nat * list Event) :=
  filter (fun x => fst x ≠ id) l.

(** The promise of a collaborator: reacting to it waits for [Settled c]. *)
Definition promise_of {A} (c : Call) (o : outcome A) : Async (Promise A) :=
  fun f =>
    let id := promises (self f) in
    (mkFrame (new_promise (self f)) (trace f) (floating f),
     Fulfilled (mkPromise id [Settled c (is_fulfilled o)] o)).

(** A call that returns a promise. *)
Definition invoke {A} (c : Call) (o : outcome A) : Async (Promise A) :=
  emit [Invoked c];; promise_of c o.

(** [Promise.resolve(v)] *)
Definition resolved {A} (v : A) : Async (Promise A) :=
  fun f =>
    let id := promises (self f) in
    (mkFrame (new_promise (self f)) (trace f) (floating f),
     Fulfilled (mkPromise id [] (Fulfilled v))).

(** What a reaction does when it runs: its own events, then those of
    the promises it left behind.  A reaction that returns a promise is
    written as one that awaits it, which settles the derived promise
    the same way at the same point. *)
Definition reaction {B} (s : State) (m : Async B)
  : State * list Event * outcome B :=
  let '(f', o) := m (mkFrame s [] []) in
  (self f', trace f' ++ concat (snd <$> floating f'), o).

(** The promise derived from [p] by a reaction [r] on its outcome:
    the common part of [then], [catch] and [finally]. *)
Definition derive {A B} (p : Promise A) (r : outcome A -> Async B)
  : Async (Promise B) :=
  fun f =>
    let '(s', evs, o) := reaction (self f) (r (settles p)) in
    let id := promises s' in
    let later := pending p ++ evs in
    (mkFrame (new_promise s') (trace f)
       (forget (promise_id p) (floating f) ++ [(id, later)]),
     Fulfilled (mkPromise id later o)).

(** [p.then(cb)] *)
Definition then_ {A B} (p : Promise A) (cb : A -> Async B)
  : Async (Promise B) :=
  derive p (fun o => match o with
                     | Fulfilled v => cb v
                     | Rejected e => throw e
                     end).

(** [p.catch(cb)] *)
Definition catch_ {A} (p : Promise A) (cb : Error -> Async A)
  : Async (Promise A) :=
  derive p (fun o => match o with
                     | Fulfilled v => mret v
                     | Rejected e => cb e
                     end).

(** [p.catch(noop)] *)
Definition catch_noop (p : Promise unit) : Async (Promise unit) :=
  catch_ p (fun _ => mret tt).

(** [await p]: what leads to the settlement of [p] happens, then the
    function goes on with the value or throws the reason. *)
Definition await {A} (p : Promise A) : Async A :=
  fun f =>
    (mkFrame (self f) (trace f ++ pending p)
       (forget (promise_id p) (floating f)),
     settles p).

(** A call of an async function on the state [s]: the state it leaves,
    everything that happens (its own promise is settled at [Finished];
    what it left floating runs after that), and its outcome. *)
Definition run {A} (m : Async A) (s : State)
  : State * list Event * outcome A :=
  let '(f', o) := m (mkFrame s [] []) in
  (self f',
   trace f' ++ [Finished (is_fulfilled o)] ++ concat (snd <$> floating f'),
   o).

(** The events of [m] as the body of a generator up to its first
    suspension: no promise of its own is settled there. *)
Definition begin {A} (m : Async A) (s : State)
  : State * list Event * outcome A :=
  reaction s m.

Definition state_after {A} (r : State * list Event * outcome A) : State :=
  fst (fst r).
Definition events {A} (r : State * list Event * outcome A) : list Event :=
  snd (fst r).
Definition result {A} (r : State * list Event * outcome A) : outcome A :=
  snd r.

(** ** The class NotebookKernelExecution *)

Section NotebookKernelExecution.

Variable w : World.
(** The two identifiers of platform/common/constants. *)
Variables JVSC_EXTENSION_ID POWER_TOYS_EXTENSION_ID : string.

Definition hookupIOPubHandler : Async unit :=
  s ← get_self;
  match session w with
  | None => mret tt
  | Some session =>
      if bool_decide (session ∈ hookedSesions s) then mret tt
      else
        method (fun s =>
          (mkState (_visibleExecutionCount s) (documentExecutions s)
             ({[session]} ∪ hookedSesions s)
             (disposables s ++ [iopub_disposable session])
             (notebook s) (queues s) (closeListeners s) (promises s), tt));;
        do_ (IOPubConnect session)
  end.

(** The constructor, after which the object waits for calls. *)
Definition constructor (notebook : NotebookDocument) : State :=
  let this :=
    mkState 0 ∅ ∅
      ([requestListener] ++
       (hook_disposable <$>
          ["onRestarted"; "onStarted"; "willInterrupt"; "willCancel";
           "willRestart"; "onStatusChanged"; "onRestarted"]))
      notebook ∅ [] 0 in
  state_after (run hookupIOPubHandler this).

(** The listener of [onDidChangeNotebookCellExecutionState].  A number
    is truthy when it is not zero. *)
Definition onDidChangeNotebookCellExecutionState
    (cell : NotebookCell) (state : NotebookCellExecutionState) : Async unit :=
  method (fun s =>
    match executionOrder cell with
    | Some order =>
        if bool_decide (cell_notebook cell = kernel_notebook w)
           && bool_decide (state = Idle)
           && negb (order =? 0)%Z
        then
          (set_visibleExecutionCount
             (Z.max (_visibleExecutionCount s) order) s, tt)
        else (s, tt)
    | None => (s, tt)
    end).

(** [kernel.onRestarted(() => (this._visibleExecutionCount = 0))] and
    the same for [kernel.onStarted]. *)
Definition reset_visibleExecutionCount : Async unit :=
  method (fun s => (set_visibleExecutionCount 0 s, tt)).

Definition resumeCellExecution (cell : NotebookCell)
    (info : ResumeCellExecutionInformation) : Async unit :=
  do_ (TraceCellMessage cell "NotebookKernelExecution.resumeCellExecution (start)");;
  if bool_decide (kind cell = Markup) then mret tt
  else
    do_ (SendKernelTelemetryEvent "ResumeCellExecution");;
    sessionPromise ← invoke (Start (DisplayOptions false))
                       (start w (DisplayOptions false));
    executionQueue ← method (fun s =>
      getOrCreateCellExecutionQueue s (cell_notebook cell)
        (promise_id sessionPromise));
    do_ (ResumeCell executionQueue cell info);;
    p ← invoke (WaitForCompletion executionQueue (Some cell))
          (waitForCompletion w executionQueue (Some cell));
    p ← then_ p (fun _ => mret true);
    p ← catch_ p (fun _ => mret false);
    success ← await p;
    do_ (TraceCellMessage cell "NotebookKernelExecution.resumeCellExecution (completed)");;
    do_ (Log (if success : bool then "Cell executed successfully"
              else "Cell executed with an error")).

Definition executeCell (cell : NotebookCell) (codeOverride : option string)
  : Async unit :=
  do_ (TraceCellMessage cell "NotebookKernelExecution.executeCell (1)");;
  if bool_decide (kind cell = Markup) then mret tt
  else
    do_ (TraceCellMessage cell "NotebookKernelExecution.executeCell (2)");;
    r ← promise_of Restarting (restarting w);
    sessionPromise ← then_ r (fun _ =>
      p ← invoke (Start (DisplayOptions false)) (start w (DisplayOptions false));
      await p);
    do_ (TraceCellMessage cell "NotebookKernelExecution.executeCell (3)");;
    await sessionPromise;;
    executionQueue ← method (fun s =>
      getOrCreateCellExecutionQueue s (cell_notebook cell)
        (promise_id sessionPromise));
    do_ (QueueCell executionQueue cell codeOverride);;
    (* let success = true; try { .. } catch (ex) { success = false; throw ex } *)
    tried ← attempt (
      do_ (TraceCellMessage cell "NotebookKernelExecution.executeCell (4)");;
      p ← invoke (WaitForCompletion executionQueue (Some cell))
            (waitForCompletion w executionQueue (Some cell));
      await p);
    let success := is_fulfilled tried in
    (* finally { .. } *)
    do_ (TraceCellMessage cell "NotebookKernelExecution.executeCell completed (5)");;
    do_ (Log (if success then "Cell executed successfully"
              else "Cell executed with an error"));;
    do_ (SendKernelTelemetryEvent "ExecuteCell");;
    (* the exception thrown in the catch block leaves the function *)
    match tried with
    | Fulfilled _ => mret tt
    | Rejected ex => throw ex
    end.

(** [executeCode] up to its [while (true)]: how the execution is
    obtained and what is subscribed to.  The body of an async generator
    runs at the first [next()]; the loop itself is [Module Generator]
    below.  The cancellation token is only handed on and logged. *)
Definition executeCode_begin (code extensionId : string)
  : Async ICodeExecution :=
  result ←
    (if bool_decide (extensionId = JVSC_EXTENSION_ID)
        || bool_decide (extensionId = POWER_TOYS_EXTENSION_ID)
     then
       r ← promise_of Restarting (restarting w);
       sessionPromise ← then_ r (fun _ =>
         p ← invoke (Start (DisplayOptions true)) (start w (DisplayOptions true));
         await p);
       let result := fromCode code extensionId in
       do_ (Created result);;
       (* void sessionPromise.then((session) => result.start(session)) *)
       then_ sessionPromise (fun session =>
         do_ (StartExecution result session));;
       mret result
     else
       r ← promise_of Restarting (restarting w);
       sessionPromise ← then_ r (fun _ =>
         let a := StartOptions false (isPostInitializedInProgress w) in
         p ← invoke (Start a) (start w a);
         await p);
       executionQueue ← method (fun s =>
         getOrCreateCellExecutionQueue s (notebook s)
           (promise_id sessionPromise));
       let result := queueCode executionQueue code extensionId in
       do_ (Created result);;
       mret result);
  (if bool_decide (extensionId ≠ JVSC_EXTENSION_ID)
   then do_ (Log "Queue code") else mret tt);;
  do_ (Subscribed result "result.finally");;
  do_ (Subscribed result "createDeferredFromPromise(result)");;
  do_ (Subscribed result "onRequestSent");;
  do_ (Subscribed result "onRequestAcknowledged");;
  do_ (Subscribed result "onDidEmitOutput");;
  do_ (Subscribed result "token.onCancellationRequested");;
  mret result.

Definition executeHidden (code : string) : Async (Promise unit) :=
  sessionPromise ← invoke (Start NoArgument) (start w NoArgument);
  then_ sessionPromise (fun session =>
    if session_kernel w session
    then p ← invoke (ExecuteSilently session code)
               (executeSilently w session code);
         await p
    else throw "SessionDisposedError").

Definition onWillInterrupt : Async unit :=
  s ← get_self;
  let executionQueue := documentExecutions s !! notebook s in
  if negb (bool_decide (is_Some executionQueue))
     && negb (connectToLiveRemoteKernel w)
  then mret tt
  else
    do_ (Log "Interrupt kernel execution");;
    match executionQueue with
    | Some executionQueue =>
        p ← invoke (Cancel executionQueue None) (cancel w executionQueue None);
        await p;;
        p ← invoke (WaitForCompletion executionQueue None)
              (waitForCompletion w executionQueue None);
        p ← catch_noop p;
        await p
    | None => mret tt
    end.

Definition onWillCancel : Async unit :=
  s ← get_self;
  let executionQueue := documentExecutions s !! notebook s in
  match executionQueue with
  | Some executionQueue =>
      p ← invoke (Cancel executionQueue (Some true))
            (cancel w executionQueue (Some true));
      await p
  | None => mret tt
  end.

(** [sessionPromise] is the optional argument of the hook, a promise
    of the kernel given by the way it settles. *)
Definition onWillRestart (sessionPromise : option (outcome IKernelSession))
  : Async unit :=
  s ← get_self;
  let executionQueue := documentExecutions s !! notebook s in
  session ←
    match sessionPromise with
    | Some sessionPromise =>
        sessionPromise ← promise_of GivenSession sessionPromise;
        (* await sessionPromise.catch(() => undefined) *)
        p ← derive sessionPromise (fun o =>
              match o with
              | Fulfilled session => mret (Some session)
              | Rejected _ => mret None
              end);
        await p
    | None => mret None
    end;
  pendingCells ←
    match executionQueue with
    | Some executionQueue =>
        p ← invoke (Cancel executionQueue (Some true))
              (cancel w executionQueue (Some true));
        then_ p (fun _ =>
          p ← invoke (WaitForCompletion executionQueue None)
                (waitForCompletion w executionQueue None);
          p ← catch_noop p;
          await p)
    | None => resolved tt
    end;
  if negb (bool_decide (is_Some (session : option IKernelSession))) then
    do_ (Log "No kernel session to interrupt");;
    await pendingCells
  else mret tt.

(** The listener that [getOrCreateCellExecutionQueue] puts on
    [workspace.onDidCloseNotebookDocument], closed over [document] and
    [newCellExecutionQueue]; [e] is the document that was closed. *)
Definition closeListener (document : NotebookDocument)
    (newCellExecutionQueue : QueueRef) (e : NotebookDocument) : Async unit :=
  if bool_decide (e = document) then
    do_ (Log "Cancel executions after closing notebook");;
    s ← get_self;
    match queues s !! newCellExecutionQueue with
    | Some o =>
        if negb (failed o) || negb (isEmpty o) then
          p ← invoke (Cancel newCellExecutionQueue (Some true))
                (cancel w newCellExecutionQueue (Some true));
          await p
        else mret tt
    | None => mret tt
    end
  else mret tt.

(** Closing the document [e] calls every listener; each is an async
    function of its own, so each has its own events. *)
Definition onDidCloseNotebookDocument (s : State) (e : NotebookDocument)
  : list (list Event) :=
  (fun l => events (run (closeListener (fst l) (snd l) e) s))
    <$> closeListeners s.

End NotebookKernelExecution.

(** ** Everything that can be asked of the object *)

Inductive Operation :=
| kernel_onStarted
| kernel_onRestarted
| kernel_onStatusChanged
| cellExecutionStateChanged (cell : NotebookCell)
    (state : NotebookCellExecutionState)
| call_resumeCellExecution (cell : NotebookCell)
    (info : ResumeCellExecutionInformation)
| call_executeCell (cell : NotebookCell) (codeOverride : option string)
| call_executeCode (code extensionId : string)
| call_executeHidden (code : string)
| hook_willInterrupt
| hook_willCancel
| hook_willRestart (sessionPromise : option (outcome IKernelSession))
| documentClosed (e : NotebookDocument)
| read_executionCount.

Section Operations.

Variable w : World.
Variables JVSC_EXTENSION_ID POWER_TOYS_EXTENSION_ID : string.

(** The listeners and methods behind each operation, registered by the
    constructor in this order. *)
Definition perform (op : Operation) : Async unit :=
  match op with
  | kernel_onStarted => reset_visibleExecutionCount
  | kernel_onRestarted => reset_visibleExecutionCount;; hookupIOPubHandler w
  | kernel_onStatusChanged => hookupIOPubHandler w
  | cellExecutionStateChanged cell state =>
      onDidChangeNotebookCellExecutionState w cell state
  | call_resumeCellExecution cell info => resumeCellExecution w cell info
  | call_executeCell cell codeOverride => executeCell w cell codeOverride
  | call_executeCode code extensionId =>
      executeCode_begin w JVSC_EXTENSION_ID POWER_TOYS_EXTENSION_ID
        code extensionId;;
      mret tt
  | call_executeHidden code => executeHidden w code;; mret tt
  | hook_willInterrupt => onWillInterrupt w
  | hook_willCancel => onWillCancel w
  | hook_willRestart sessionPromise => onWillRestart w sessionPromise
  | documentClosed e =>
      s ← get_self;
      foldr (fun l rest => attempt (closeListener w l.1 l.2 e);; rest)
        (mret tt) (closeListeners s)
  | read_executionCount => mret tt
  end.

(** The state in which an operation leaves the object.  What the
    methods of a queue do to the queue, within the operation or after
    it, is not in it: that is the activity of the queues
    ([queue_activity] below), and the flags of a queue are here as the
    operation found them. *)
Definition step (s : State) (op : Operation) : State :=
  state_after (run (perform op) s).

End Operations.

(** The states the object can be in: built by the constructor, then any
    operations, the collaborators answering each as they please. *)
Inductive reachable (JVSC_EXTENSION_ID POWER_TOYS_EXTENSION_ID : string)
  : State -> Prop :=
| reachable_constructor w notebook :
    reachable JVSC_EXTENSION_ID POWER_TOYS_EXTENSION_ID
      (constructor w notebook)
| reachable_step w s op :
    reachable JVSC_EXTENSION_ID POWER_TOYS_EXTENSION_ID s ->
    reachable JVSC_EXTENSION_ID POWER_TOYS_EXTENSION_ID
      (step w JVSC_EXTENSION_ID POWER_TOYS_EXTENSION_ID s op).

(** ** The loop of [executeCode] *)

Module Generator.

(** Where the generator stands. *)
Inductive Control :=
| AwaitingRace (race : option bool)
    (* at [await Promise.race([outputsReceived.promise, done.promise])];
       [None] while the race is pending, [Some true] once it is
       fulfilled, [Some false] once it is rejected *)
| Yielding (output : NotebookCellOutput)
    (* inside [yield output], before the value is handed over *)
| SuspendedYield
    (* after [yield output], no [next()] waiting *)
| Completed (returned : bool).
    (* left the loop by [break] ([true]) or by an exception ([false]) *)

Record Gen := mkGen {
  outputs : list NotebookCellOutput;   (* const outputs = [] *)
  completed : bool;                    (* let completed = false *)
  result_result : option bool;
    (* result.result: [None] while it is pending, then whether it was
       fulfilled *)
  done : option bool;
    (* const done; [done.completed] is [is_Some], the value is whether
       it was resolved *)
  subscribed : bool;
    (* the onDidEmitOutput listener has not been disposed *)
  session : option IKernelSession;     (* const session, per iteration *)
  control : Control;
  requests : nat;                      (* next() calls not answered yet *)
  yielded : list NotebookCellOutput;   (* values handed to the consumer *)
  tracked : list (IKernelSession * NotebookCellOutput)
    (* calls of trackDisplayDataForExtension *)
}.

(** What happens around the generator.  The reactions put on
    [result.result] are jobs of their own: they run some time after the
    promise has settled, and the execution may emit in between. *)
Inductive Input :=
| onDidEmitOutput (e : NotebookCellOutput)  (* the execution emits [e] *)
| result_settles (ok : bool)
    (* result.result is resolved or rejected *)
| finally_reaction
    (* the job of the reaction of [result.result.finally(..)] runs *)
| done_reaction
    (* the job that settles [done] runs *)
| next                                      (* the consumer calls next() *)
| resume (kernel_session : option IKernelSession).
    (* the job that continues the generator after an await runs;
       [kernel_session] is [this.kernel.session] at that moment *)

(** The body runs at the first [next()], up to the first [await]: the
    listeners are in place, nothing was emitted, the race is pending. *)
Definition first_next : Gen :=
  mkGen [] false None None true None (AwaitingRace None) 1 [] [].

(** The listener of [result.onDidEmitOutput]: push, resolve the
    deferred the race may be waiting for, replace it. *)
Definition on_emit (e : NotebookCellOutput) (g : Gen) : Gen :=
  mkGen (outputs g ++ [e]) (completed g) (result_result g) (done g)
    (subscribed g) (session g)
    (match control g with
     | AwaitingRace None => AwaitingRace (Some true)
     | c => c
     end)
    (requests g) (yielded g) (tracked g).

(** [result.result] settles: nothing of this function runs yet, the
    reactions put on the promise are queued. *)
Definition on_settle (ok : bool) (g : Gen) : Gen :=
  mkGen (outputs g) (completed g) (Some ok) (done g) (subscribed g)
    (session g) (control g) (requests g) (yielded g) (tracked g).

(** The reaction of [result.result.finally]: [completed = true], then
    [dispose(disposables)], which takes the listener of onDidEmitOutput
    away. *)
Definition on_finally (g : Gen) : Gen :=
  mkGen (outputs g) true (result_result g) (done g) false (session g)
    (control g) (requests g) (yielded g) (tracked g).

(** Modelled from the spec: the completion signal [done]
    ([createDeferredFromPromise] of platform/common/utils/async is not
    among the sources) is completed by a reaction on the Request's
    result promise, and settles the way that promise did; a race that is
    still pending settles with it. *)
Definition on_done (ok : bool) (g : Gen) : Gen :=
  mkGen (outputs g) (completed g) (result_result g) (Some ok) (subscribed g)
    (session g)
    (match control g with
     | AwaitingRace None => AwaitingRace (Some ok)
     | c => c
     end)
    (requests g) (yielded g) (tracked g).

(** The generator runs on from the test of [while (outputs.length)] to
    the place where it next stops. *)
Definition continue (g : Gen) : Gen :=
  match outputs g with
  | output :: rest =>
      (* const output = outputs.shift()!;
         if (session) trackDisplayDataForExtension(extensionId, session, output);
         yield output *)
      mkGen rest (completed g) (result_result g) (done g) (subscribed g)
        (session g) (Yielding output) (requests g) (yielded g)
        (match session g with
         | Some session => tracked g ++ [(session, output)]
         | None => tracked g
         end)
  | [] =>
      match done g with
      | Some _ =>
          (* if (done.completed) break; the requests still waiting are
             answered with { done: true } *)
          mkGen [] (completed g) (result_result g) (done g) (subscribed g)
            (session g) (Completed true) 0 (yielded g) (tracked g)
      | None =>
          (* await Promise.race([outputsReceived.promise, done.promise]),
             both pending *)
          mkGen [] (completed g) (result_result g) (done g) (subscribed g)
            (session g) (AwaitingRace None) (requests g) (yielded g)
            (tracked g)
      end
  end.

(** The continuation of the generator after an await. *)
Definition on_resume (kernel_session : option IKernelSession) (g : Gen)
  : Gen :=
  match control g with
  | AwaitingRace (Some true) =>
      (* if (completed) outputsReceived = createDeferred();
         const session = this.kernel.session *)
      continue (mkGen (outputs g) (completed g) (result_result g) (done g)
                  (subscribed g) kernel_session (control g) (requests g)
                  (yielded g) (tracked g))
  | AwaitingRace (Some false) =>
      (* the await throws what [done] was rejected with *)
      mkGen (outputs g) (completed g) (result_result g) (done g)
        (subscribed g) (session g) (Completed false) 0 (yielded g)
        (tracked g)
  | Yielding output =>
      (* the oldest request gets [output]; the generator goes on when
         another request waits, and stays at the yield otherwise *)
      let g' := mkGen (outputs g) (completed g) (result_result g) (done g)
                  (subscribed g) (session g) SuspendedYield (requests g - 1)
                  (yielded g ++ [output]) (tracked g) in
      if (requests g' =? 0)%nat then g' else continue g'
  | _ => g
  end.

(** The consumer calls [next()]. *)
Definition on_next (g : Gen) : Gen :=
  let g' := mkGen (outputs g) (completed g) (result_result g) (done g)
              (subscribed g) (session g) (control g) (S (requests g))
              (yielded g) (tracked g) in
  match control g with
  | SuspendedYield => continue g'
  | Completed _ => g
  | _ => g'
  end.

(** One input.  A promise settles once.  The reactions on
    [result.result] run once each, after it has settled and in the
    order in which they were put on it: that of [finally] (line 248)
    before the one behind [done] (line 263). *)
Definition react (g : Gen) (i : Input) : Gen :=
  match i with
  | onDidEmitOutput e => if subscribed g then on_emit e g else g
  | result_settles ok =>
      if result_result g is Some _ then g else on_settle ok g
  | finally_reaction =>
      match result_result g with
      | Some _ => if completed g then g else on_finally g
      | None => g
      end
  | done_reaction =>
      match result_result g, done g with
      | Some ok, None => if completed g then on_done ok g else g
      | _, _ => g
      end
  | next => on_next g
  | resume kernel_session => on_resume kernel_session g
  end.

Definition after (ins : list Input) : Gen := foldl react first_next ins.

(** The value the generator holds inside [yield], if it is there. *)
Definition in_flight (g : Gen) : list NotebookCellOutput :=
  match control g with Yielding output => [output] | _ => [] end.

(** The deltas of [ins] emitted while the listener of onDidEmitOutput
    is in place, that is before the reaction of [finally] runs;
    [settled] says whether the result promise has settled already. *)
Fixpoint heard (settled : bool) (ins : list Input)
  : list NotebookCellOutput :=
  match ins with
  | [] => []
  | onDidEmitOutput e :: ins => e :: heard settled ins
  | result_settles _ :: ins => heard true ins
  | finally_reaction :: ins => if settled then [] else heard settled ins
  | _ :: ins => heard settled ins
  end.

(** The deltas the execution emitted before the reaction of [finally]
    disposed of the listener. *)
Definition emitted (ins : list Input) : list NotebookCellOutput :=
  heard false ins.



(** Whether the result promise has settled in [ins]. *)
Definition settled (ins : list Input) : bool :=
  existsb (fun i => if i is result_settles _ then true else false) ins.

(** A consumer that keeps pulling, [k] times: the pending jobs run (the
    reactions on the result promise, the continuation of the
    generator), then [next()] is called. *)
Definition pull (k : nat) : list Input :=
  concat (replicate k [finally_reaction; done_reaction; resume None; next]).

(** What holds of the generator at every moment. *)
Definition consistent (g : Gen) : Prop :=
  (completed g = true → is_Some (result_result g)) ∧
  subscribed g = negb (completed g) ∧
  (∀ ok, done g = Some ok → completed g = true ∧ result_result g = Some ok) ∧
  match control g with
  | AwaitingRace None => outputs g = [] ∧ done g = None ∧ (1 ≤ requests g)%nat
  | AwaitingRace (Some true) => (1 ≤ requests g)%nat
  | AwaitingRace (Some false) =>
      outputs g = [] ∧ done g = Some false ∧ (1 ≤ requests g)%nat
  | Yielding _ => (1 ≤ requests g)%nat
  | SuspendedYield => requests g = 0
  | Completed returned =>
      outputs g = [] ∧ is_Some (done g) ∧
      (returned = false → done g = Some false)
  end.

(** The deltas the listener received, in order: those handed to the
    consumer, the one inside [yield], those still in [outputs]. *)
Definition stream (g : Gen) : list NotebookCellOutput :=
  yielded g ++ in_flight g ++ outputs g.

(** The deltas an input adds to the stream. *)
Definition added (g : Gen) (i : Input) : list NotebookCellOutput :=
  match i with
  | onDidEmitOutput e => if subscribed g then [e] else []
  | _ => []
  end.

(** An upper bound on the rounds of [pull] the generator still needs. *)
Definition fuel (g : Gen) : nat :=
  2 * length (outputs g) +
  match control g with
  | AwaitingRace None | Completed _ => 0
  | _ => 1
  end +
  match result_result g, done g with
  | Some _, None => 1
  | _, _ => 0
  end.

End Generator.

(** ** Notions used in the properties, and example states *)

(** A state in which document 1 has the queue 0, which is empty and has
    not failed, as a queue is when it has just been constructed. *)
Definition idle_queue_state : State :=
  mkState 0 {[1 := 0]} ∅ [queue_disposable 0; closeListener_disposable 1 0]
    1 {[0 := new_CellExecutionQueue 7]} [(1, 0)] 8.

(** A state in which document 1 has the queue 0, busy with a cell. *)
Definition busy_queue_state : State :=
  mkState 0 {[1 := 0]} ∅ [queue_disposable 0; closeListener_disposable 1 0]
    1 {[0 := mkQueue 7 false false]} [(1, 0)] 8.

Definition quiet_world : World :=
  mkWorld (Fulfilled tt) (fun _ => Fulfilled 3) (fun _ _ => Fulfilled tt)
    (fun _ _ => Fulfilled tt) (fun _ _ => Fulfilled tt) (Some 3)
    (fun _ => true) false false 1.

(** The kernel of [quiet_world], except that waiting for the queue
    fails. *)
Definition failing_wait_world : World :=
  mkWorld (Fulfilled tt) (fun _ => Fulfilled 3) (fun _ _ => Fulfilled tt)
    (fun _ _ => Rejected "cancelled") (fun _ _ => Fulfilled tt) (Some 3)
    (fun _ => true) false false 1.

(** The kernel of [quiet_world], except that cancelling a queue fails. *)
Definition failing_cancel_world : World :=
  mkWorld (Fulfilled tt) (fun _ => Fulfilled 3)
    (fun _ _ => Rejected "cancel failed")
    (fun _ _ => Fulfilled tt) (fun _ _ => Fulfilled tt) (Some 3)
    (fun _ => true) false false 1.

Definition markup_cell : NotebookCell := mkCell 0 Markup 1 None.
Definition code_cell : NotebookCell := mkCell 1 Code 1 None.

(** An async function that leaves [_visibleExecutionCount] alone,
    whatever it starts from. *)
Definition keeps_count {A} (m : Async A) : Prop :=
  ∀ f, executionCount (self (m f).1) = executionCount (self f).

(** An idle-state change of a cell of the kernel's notebook that
    carries the execution order [order]. *)
Definition idle_with_order (w : World) (op : Operation) (order : Z) : Prop :=
  ∃ cell, op = cellExecutionStateChanged cell Idle ∧
          cell_notebook cell = kernel_notebook w ∧
          executionOrder cell = Some order.

(** ** Notions used in the further properties *)

(** An async function that takes the object from a state to one
    related to it by [R], whatever it starts from. *)
Definition respects (R : State → State → Prop) {A} (m : Async A) : Prop :=
  ∀ f, R (self f) (self (m f).1).

(** From [s] to [s'] nothing was taken away: the disposables and the
    close listeners were at most extended, every hooked session is still
    hooked, every document that had a queue has one, and every queue is
    still there. *)
Definition grows (s s' : State) : Prop :=
  disposables s `prefix_of` disposables s' ∧
  closeListeners s `prefix_of` closeListeners s' ∧
  hookedSesions s ⊆ hookedSesions s' ∧
  dom (documentExecutions s) ⊆ dom (documentExecutions s') ∧
  dom (queues s) ⊆ dom (queues s') ∧
  notebook s' = notebook s ∧
  (promises s ≤ promises s')%nat.

(** What the code of the queues does to the state between two
    operations: units come and go and a queue may fail, so the flags of
    a queue change; the queues stay the same objects, bound to the same
    session promises. *)
Definition queue_activity (s s' : State) : Prop :=
  _visibleExecutionCount s' = _visibleExecutionCount s ∧
  documentExecutions s' = documentExecutions s ∧
  hookedSesions s' = hookedSesions s ∧
  disposables s' = disposables s ∧
  notebook s' = notebook s ∧
  closeListeners s' = closeListeners s ∧
  promises s' = promises s ∧
  dom (queues s') = dom (queues s) ∧
  (∀ q o o', queues s !! q = Some o → queues s' !! q = Some o' →
             q_sessionPromise o' = q_sessionPromise o).

(** The states of a running object: built by the constructor, then any
    operations and any activity of the queues in between. *)
Inductive running (JVSC_EXTENSION_ID POWER_TOYS_EXTENSION_ID : string)
  : State → Prop :=
| running_constructor w notebook :
    running JVSC_EXTENSION_ID POWER_TOYS_EXTENSION_ID (constructor w notebook)
| running_step w s op :
    running JVSC_EXTENSION_ID POWER_TOYS_EXTENSION_ID s →
    running JVSC_EXTENSION_ID POWER_TOYS_EXTENSION_ID
      (step w JVSC_EXTENSION_ID POWER_TOYS_EXTENSION_ID s op)
| running_queues s s' :
    running JVSC_EXTENSION_ID POWER_TOYS_EXTENSION_ID s →
    queue_activity s s' →
    running JVSC_EXTENSION_ID POWER_TOYS_EXTENSION_ID s'.

(** The queue map, the queue objects and the close listeners fit
    together: the queue of a document exists and has a listener for that
    document, the queue of every listener exists, and no queue has two
    listeners. *)
Definition well_formed (s : State) : Prop :=
  (∀ d q, documentExecutions s !! d = Some q →
          q ∈ dom (queues s) ∧ (d, q) ∈ closeListeners s) ∧
  (∀ d q, (d, q) ∈ closeListeners s → q ∈ dom (queues s)) ∧
  NoDup (snd <$> closeListeners s).

(** The sessions whose iopub signal has a handler of this object. *)
Definition connected (s : State) : list IKernelSession :=
  omap (fun d => if d is iopub_disposable x then Some x else None)
    (disposables s).

(** Every session has at most one handler, and has one exactly when it
    is in [hookedSesions]. *)
Definition hooked_once (s : State) : Prop :=
  NoDup (connected s) ∧ ∀ x, x ∈ connected s ↔ x ∈ hookedSesions s.

(** A world in which the kernel cannot be started. *)
Definition no_kernel_world : World :=
  mkWorld (Fulfilled tt) (fun _ => Rejected "no kernel")
    (fun _ _ => Fulfilled tt) (fun _ _ => Fulfilled tt)
    (fun _ _ => Fulfilled tt) None (fun _ => false) false false 1.

Module GeneratorNotions.
Import Generator.

(** The number of [next()] calls in [ins]. *)
Fixpoint nexts (ins : list Input) : nat :=
  match ins with
  | [] => 0
  | next :: ins => S (nexts ins)
  | _ :: ins => nexts ins
  end.

(** The kernel has a session each time the generator is resumed. *)
Definition session_present (ins : list Input) : bool :=
  forallb (fun i => if i is resume None then false else true) ins.

(** The deltas the generator has taken out of [outputs], in order. *)
Definition taken (g : Gen) : list NotebookCellOutput :=
  yielded g ++ in_flight g.

(** [done] is completed and the generator is at a place from
    which it can only leave the loop by [break]. *)
Definition ends_by_break (g : Gen) : Prop :=
  is_Some (done g) ∧
  match control g with
  | AwaitingRace (Some true) | Yielding _ | SuspendedYield
  | Completed true => True
  | _ => False
  end.

End GeneratorNotions.

(** ** JupyterSelfCertsError (platform/errors) *)

(** [message.indexOf(pattern) >= 0] *)
Definition includes (message pattern : string) : bool :=
  if String.index 0 pattern message is Some _ then true else false.

(** [isSelfCertsError(err)].  [err] is [None] for [undefined], and
    holds the [message] property otherwise, [None] when that is
    undefined or null: [err?.message ?? ''] is then the empty string. *)
Definition isSelfCertsError (err : option (option string)) : bool :=
  let message := default "" (err ≫= id) in
  includes message "reason: self signed certificate"
  || includes message "reason: unable to verify the first certificate"
  || includes message "reason: unable to get issuer certificate"
  || includes message "is not in the cert's list".

(** The four texts looked for. *)
Definition self_cert_texts : list string :=
  ["reason: self signed certificate";
   "reason: unable to verify the first certificate";
   "reason: unable to get issuer certificate";
   "is not in the cert's list"].

(** [s'] is a state the object can be in some time after [s]. *)
Inductive later (JVSC_EXTENSION_ID POWER_TOYS_EXTENSION_ID : string)
  : State → State → Prop :=
| later_now s : later JVSC_EXTENSION_ID POWER_TOYS_EXTENSION_ID s s
| later_step w s s' op :
    later JVSC_EXTENSION_ID POWER_TOYS_EXTENSION_ID s s' →
    later JVSC_EXTENSION_ID POWER_TOYS_EXTENSION_ID s
      (step w JVSC_EXTENSION_ID POWER_TOYS_EXTENSION_ID s' op)
| later_queues s s' s'' :
    later JVSC_EXTENSION_ID POWER_TOYS_EXTENSION_ID s s' →
    queue_activity s' s'' →
    later JVSC_EXTENSION_ID POWER_TOYS_EXTENSION_ID s s''.

(** From [s] to [s'] nothing was taken away, and a document got no
    queue but the one it had or one that did not exist. *)
Definition records_new_queues_only (s s' : State) : Prop :=
  grows s s' ∧
  ∀ d q, documentExecutions s' !! d = Some q →
         documentExecutions s !! d = Some q ∨ q ∉ dom (queues s).

(** The runs of the close listeners that call [cancel] on [q] when the
    document [e] is closed. *)
Definition cancellations (w : World) (s : State) (e : NotebookDocument)
    (q : QueueRef) : list (list Event) :=
  filter (fun t => Invoked (Cancel q (Some true)) ∈ t)
    (onDidCloseNotebookDocument w s e).

(** * Properties *)

(** ** Tactics and general facts *)

Ltac async_unfold :=
  unfold run, begin, events, result, state_after, invoke, emit, promise_of,
    resolved, catch_noop, catch_, then_, derive, reaction, await, method,
    do_, throw, attempt, get_self, forget, mbind, mret, Async_bind, Async_ret
    in *.

Ltac async_eval :=
  async_unfold; cbn;
  repeat (case_decide; try lia; try congruence; cbn).

(** Membership in a list that is written out. *)
Ltac in_list := apply list_elem_of_In; cbn; auto 20.
Ltac not_in_list H :=
  apply list_elem_of_In in H; cbn in H;
  intuition (try discriminate; try congruence).

Lemma can_be_used_Some s existing q :
  can_be_used s existing = Some q ↔
  existing = Some q ∧
  ∃ o, queues s !! q = Some o ∧ isEmpty o = false ∧ failed o = false.
Proof.
  unfold can_be_used. split.
  - destruct existing as [q'|]; [|done].
    destruct (queues s !! q') as [o|] eqn:Hq; [|done].
    destruct (isEmpty o) eqn:He, (failed o) eqn:Hf; cbn; try done.
    intros [= ->]. eauto.
  - intros [-> (o & -> & -> & ->)]. done.
Qed.

(** ** getOrCreateCellExecutionQueue *)

(** C2, as stated, fails: the queue of document 1 in [idle_queue_state]
    has not failed, so "non-empty or not failed" holds of it, yet the
    call does not return it: it constructs queue 1 and stores that. *)
Lemma getOrCreateCellExecutionQueue_empty_not_reused :
  documentExecutions idle_queue_state !! 1 = Some 0 ∧
  (∃ o, queues idle_queue_state !! 0 = Some o ∧
        (isEmpty o = false ∨ failed o = false)) ∧
  (getOrCreateCellExecutionQueue idle_queue_state 1 9).2 = 1 ∧
  documentExecutions (getOrCreateCellExecutionQueue idle_queue_state 1 9).1
    !! 1 = Some 1.
Proof.
  split; [done|]. split; [eexists; split; [done|right; done]|].
  by vm_compute.
Qed.

(** C2 (amended): a call that obtains a queue for a document returns
    the existing Queue exactly when there is one and it is non-empty
    and has not failed, leaving everything as it was; in every other
    case it constructs a brand-new Queue bound to the session promise it
    was given, stores it for the document and leaves the other queues
    alone.  A Queue that has failed is never the one returned. *)
Theorem getOrCreateCellExecutionQueue_reuse
    (s : State) (document : NotebookDocument) (sessionPromise : nat) :
  let r := getOrCreateCellExecutionQueue s document sessionPromise in
  (∀ q o, documentExecutions s !! document = Some q →
          queues s !! q = Some o →
          isEmpty o = false → failed o = false →
          r = (s, q)) ∧
  ((∀ q o, documentExecutions s !! document = Some q →
           queues s !! q = Some o →
           isEmpty o = true ∨ failed o = true) →
   (snd r ∉ dom (queues s)) ∧
   queues r.1 !! r.2 = Some (new_CellExecutionQueue sessionPromise) ∧
   documentExecutions r.1 !! document = Some r.2 ∧
   (∀ q, q ≠ r.2 → queues r.1 !! q = queues s !! q) ∧
   (∀ d, d ≠ document →
         documentExecutions r.1 !! d = documentExecutions s !! d)) ∧
  (∀ o, queues r.1 !! r.2 = Some o → failed o = false).
Proof.
  intros r. subst r. unfold getOrCreateCellExecutionQueue.
  destruct (can_be_used s (documentExecutions s !! document)) as [q0|] eqn:Hc.
  - apply can_be_used_Some in Hc as (Hd & o0 & Hq & He & Hf).
    split; [|split].
    + intros q o Hd' Hq' _ _. congruence.
    + intros Hall. destruct (Hall q0 o0 Hd Hq); congruence.
    + cbn. intros o Ho. congruence.
  - split; [|split].
    + intros q o Hd Hq He Hf.
      assert (can_be_used s (documentExecutions s !! document) = Some q)
        by (apply can_be_used_Some; eauto).
      congruence.
    + intros _. cbn. repeat split.
      * apply is_fresh.
      * apply lookup_insert_eq.
      * apply lookup_insert_eq.
      * intros q Hne. by apply lookup_insert_ne.
      * intros d Hne. by apply lookup_insert_ne.
    + cbn. intros o. rewrite lookup_insert_eq. by intros [= <-].
Qed.

(** The theorem at [idle_queue_state]: the empty queue is replaced. *)
Lemma getOrCreateCellExecutionQueue_reuse_witness :
  snd (getOrCreateCellExecutionQueue idle_queue_state 1 9)
    ∉ dom (queues idle_queue_state).
Proof.
  destruct (getOrCreateCellExecutionQueue_reuse idle_queue_state 1 9)
    as (_ & Hnew & _).
  apply Hnew.
  intros q o Hd Hq. left.
  vm_compute in Hd. injection Hd as <-.
  vm_compute in Hq. injection Hq as <-. reflexivity.
Defined.

(** ** The document-closed listener *)

(** C1, as stated, fails: the queue 0 of [idle_queue_state] is empty
    and has not failed, so the claim has it left alone when document 1
    is closed, yet its listener calls [cancel(true)]. *)
Lemma closeListener_cancels_idle_queue :
  (∃ o, queues idle_queue_state !! 0 = Some o ∧
        isEmpty o = true ∧ failed o = false) ∧
  (1, 0) ∈ closeListeners idle_queue_state ∧
  Invoked (Cancel 0 (Some true))
    ∈ events (run (closeListener quiet_world 1 0 1) idle_queue_state).
Proof.
  split; [eexists; split; [done|split; done]|].
  split; [vm_compute; left|vm_compute; right; left].
Qed.

(** C1 (amended): when a notebook document is closed, the listener of a
    Queue calls [cancel(true)] on it exactly when the closed document is
    the Queue's document and the Queue has not failed or is not empty
    (so an empty Queue that has not failed is cancelled, and only a
    Queue that is both failed and empty is left alone); it makes no
    other call.  [getOrCreateCellExecutionQueue] registers this
    listener, for the document and the Queue at hand, whenever it
    constructs a Queue. *)
Theorem closeListener_cancels_unless_failed_and_empty
    (w : World) (s : State) (document : NotebookDocument) (q : QueueRef)
    (o : CellExecutionQueue) (e : NotebookDocument) :
  queues s !! q = Some o →
  let r := run (closeListener w document q e) s in
  (Invoked (Cancel q (Some true)) ∈ events r ↔
     e = document ∧ (failed o = false ∨ isEmpty o = false)) ∧
  (∀ c, Invoked c ∈ events r → c = Cancel q (Some true)) ∧
  forceful (Some true) = true ∧
  (∀ sessionPromise,
     let g := getOrCreateCellExecutionQueue s document sessionPromise in
     fst g = s ∨ closeListeners (fst g) = closeListeners s ++ [(document, snd g)]).
Proof.
  intros Hq r. subst r. split; [|split; [|split]]; [| |done|].
  - unfold closeListener. case_bool_decide as He.
    + async_eval. rewrite Hq.
      destruct (failed o) eqn:Hf, (isEmpty o) eqn:Hem; cbn;
        try destruct (cancel w q (Some true)); cbn;
        (split; [intros H; try (split; [done|auto]); not_in_list H
                |intros [_ [|]]; try done; in_list]).
    + async_eval. split; [intros H; not_in_list H|]. intros [? _]. done.
  - unfold closeListener. case_bool_decide as He.
    + async_eval. rewrite Hq.
      destruct (negb (failed o) || negb (isEmpty o)); cbn;
        try destruct (cancel w q (Some true)); cbn;
        intros c Hc; not_in_list Hc.
    + async_eval. intros c Hc. not_in_list Hc.
  - intros sessionPromise g. subst g. unfold getOrCreateCellExecutionQueue.
    destruct (can_be_used _ _); cbn; auto.
Qed.

(** The theorem at [idle_queue_state]: closing document 1 cancels the
    empty queue 0. *)
Lemma closeListener_cancels_unless_failed_and_empty_witness :
  Invoked (Cancel 0 (Some true))
    ∈ events (run (closeListener quiet_world 1 0 1) idle_queue_state).
Proof.
  apply (closeListener_cancels_unless_failed_and_empty quiet_world
           idle_queue_state 1 0 (new_CellExecutionQueue 7) 1).
  - reflexivity.
  - split; [reflexivity|]. left. reflexivity.
Defined.

(** ** The hooks of the kernel *)

Ltac decided :=
  cbn; repeat (case_decide; try lia; try congruence; cbn).

(** [precedes] on a list that is written out, of at most nine events. *)
Ltac precedes_at H :=
  cbn in H;
  first
    [ discriminate H
    | by (exists 0; split; [lia|done])
    | by (exists 1; split; [lia|done])
    | by (exists 2; split; [lia|done])
    | by (exists 3; split; [lia|done])
    | by (exists 4; split; [lia|done])
    | by (exists 5; split; [lia|done]) ].

Ltac precedes_tac :=
  let i := fresh "i" in
  let H := fresh "H" in
  intros i H;
  do 9 (try (destruct i as [|i]; [precedes_at H|]));
  cbn in H; discriminate H.

(** C3: for an interrupt on a document with an execution queue, the
    handler calls the queue's [cancel] without the forceful flag, calls
    [waitForCompletion] only after that cancel call has completed, never
    before, and ends without an error whatever [waitForCompletion]
    answers: its own outcome is that of the cancel call alone. *)
Theorem onWillInterrupt_cancel_then_wait
    (w : World) (s : State) (q : QueueRef) :
  documentExecutions s !! notebook s = Some q →
  let r := run (onWillInterrupt w) s in
  let cancelled := is_fulfilled (cancel w q None) in
  let drained := is_fulfilled (waitForCompletion w q None) in
  forceful None = false ∧
  events r =
    [Did (Log "Interrupt kernel execution");
     Invoked (Cancel q None); Settled (Cancel q None) cancelled] ++
    (if cancelled
     then [Invoked (WaitForCompletion q None);
           Settled (WaitForCompletion q None) drained]
     else []) ++
    [Finished cancelled] ∧
  precedes (Settled (Cancel q None) true)
    (Invoked (WaitForCompletion q None)) (events r) ∧
  (cancelled = true → Invoked (WaitForCompletion q None) ∈ events r) ∧
  result r = cancel w q None.
Proof.
  intros Hq. cbn zeta. split; [done|].
  unfold onWillInterrupt. async_eval. rewrite Hq. cbn.
  destruct (cancel w q None) as [[]|e]; cbn;
    destruct (waitForCompletion w q None) as [[]|e']; decided;
    (split; [done|split; [precedes_tac|split; [|done]]]);
    intros; try done; in_list.
Qed.

(** The theorem where the wait fails: the interrupt still ends well. *)
Lemma onWillInterrupt_cancel_then_wait_witness :
  result (run (onWillInterrupt failing_wait_world) busy_queue_state)
  = Fulfilled tt.
Proof.
  destruct (onWillInterrupt_cancel_then_wait failing_wait_world
              busy_queue_state 0) as (_ & _ & _ & _ & H).
  - reflexivity.
  - exact H.
Defined.

(** C4, as stated, fails: the call of [waitForCompletion] is a reaction
    to the fulfilment of [cancel(true)].  Where that call is rejected
    the queue of document 1 is cancelled and never waited for, with a
    session and without one, and without a session the handler is
    itself rejected with the error of the cancel call. *)
Lemma onWillRestart_skips_drain_when_cancel_fails :
  documentExecutions busy_queue_state !! notebook busy_queue_state = Some 0 ∧
  Invoked (Cancel 0 (Some true))
    ∈ events (run (onWillRestart failing_cancel_world None) busy_queue_state) ∧
  (Invoked (WaitForCompletion 0 None)
     ∉ events (run (onWillRestart failing_cancel_world None)
                 busy_queue_state)) ∧
  result (run (onWillRestart failing_cancel_world None) busy_queue_state)
  = Rejected "cancel failed" ∧
  (Invoked (WaitForCompletion 0 None)
     ∉ events (run (onWillRestart failing_cancel_world (Some (Fulfilled 3)))
                 busy_queue_state)).
Proof.
  split; [done|]. split; [vm_compute; left|].
  split; [intros H; vm_compute in H; not_in_list H|].
  split; [done|]. intros H; vm_compute in H; not_in_list H.
Qed.

(** C4 (amended): for a restart on a document with an execution queue,
    whether the new session promise resolves, rejects or is absent, the
    handler calls [cancel(true)]; [waitForCompletion] is called exactly
    when that call is fulfilled, after it has completed, by the chain
    the handler set up, and its error is swallowed.  With a session the
    handler ends at once and the chain runs on after it; without one it
    logs and ends only after the chain has: after the cancel and the
    drain when the cancel call is fulfilled, and with the error of the
    cancel call, nothing drained, when it is rejected. *)
Theorem onWillRestart_cancel_then_drain
    (w : World) (s : State) (q : QueueRef)
    (sessionPromise : option (outcome IKernelSession)) :
  documentExecutions s !! notebook s = Some q →
  let r := run (onWillRestart w sessionPromise) s in
  let cancelled := is_fulfilled (cancel w q (Some true)) in
  let drained := is_fulfilled (waitForCompletion w q None) in
  let cancel_then_drain :=
    [Settled (Cancel q (Some true)) cancelled] ++
    (if cancelled
     then [Invoked (WaitForCompletion q None);
           Settled (WaitForCompletion q None) drained]
     else []) in
  forceful (Some true) = true ∧
  Invoked (Cancel q (Some true)) ∈ events r ∧
  precedes (Settled (Cancel q (Some true)) true)
    (Invoked (WaitForCompletion q None)) (events r) ∧
  ((Invoked (WaitForCompletion q None) ∈ events r ↔ cancelled = true) ∧
   (cancelled = true →
      Settled (WaitForCompletion q None) drained ∈ events r)) ∧
  (∀ session, sessionPromise = Some (Fulfilled session) →
     events r =
       [Settled GivenSession true; Invoked (Cancel q (Some true));
        Finished true] ++ cancel_then_drain ∧
     result r = Fulfilled tt) ∧
  (sessionPromise = None ∨ (∃ e, sessionPromise = Some (Rejected e)) →
     events r =
       (if sessionPromise is Some _ then [Settled GivenSession false] else [])
       ++ [Invoked (Cancel q (Some true));
           Did (Log "No kernel session to interrupt")]
       ++ cancel_then_drain ++ [Finished cancelled] ∧
     result r = cancel w q (Some true) ∧
     (cancelled = true →
      precedes (Settled (WaitForCompletion q None) drained)
        (Finished true) (events r))).
Proof.
  intros Hq. cbn zeta. split; [done|].
  unfold onWillRestart. async_eval. rewrite Hq. cbn.
  destruct sessionPromise as [[session|e]|]; cbn;
    destruct (cancel w q (Some true)) as [[]|e1]; cbn;
    destruct (waitForCompletion w q None) as [[]|e2]; decided.
  all: split; [in_list|].
  all: split; [precedes_tac|].
  all: split;
    [split; [split; [intros Hin; try done; not_in_list Hin
                    |intros; try done; in_list]
            |intros; try done; in_list]|].
  all: split; [intros ? [=]; subst; try done|].
  all: intros [[=]|[e' [=]]]; subst; try done.
  all: split; [done|split; [done|]]; intros; try done; precedes_tac.
Qed.

(** The theorem with no session promise at all: the handler ends well
    although waiting for the queue fails. *)
Lemma onWillRestart_cancel_then_drain_witness :
  result (run (onWillRestart failing_wait_world None) busy_queue_state)
  = Fulfilled tt.
Proof.
  destruct (onWillRestart_cancel_then_drain failing_wait_world
              busy_queue_state 0 None) as (_ & _ & _ & _ & _ & H).
  - reflexivity.
  - destruct H as (_ & H & _); [left; reflexivity|exact H].
Defined.

(** C5: for a hard cancel, the handler calls [cancel(true)] on the
    queue of the document when there is one, and never calls
    [waitForCompletion]; when there is no queue it does nothing. *)
Theorem onWillCancel_cancels_without_waiting (w : World) (s : State) :
  let r := run (onWillCancel w) s in
  forceful (Some true) = true ∧
  match documentExecutions s !! notebook s with
  | Some q =>
      events r =
        [Invoked (Cancel q (Some true));
         Settled (Cancel q (Some true))
           (is_fulfilled (cancel w q (Some true)));
         Finished (is_fulfilled (cancel w q (Some true)))]
  | None => events r = [Finished true] ∧ state_after r = s
  end ∧
  (∀ q cell, Invoked (WaitForCompletion q cell) ∉ events r).
Proof.
  cbn zeta. split; [done|].
  unfold onWillCancel. async_eval.
  destruct (documentExecutions s !! notebook s) as [q|]; cbn.
  - destruct (cancel w q (Some true)) as [[]|e]; cbn;
      (split; [done|]); intros q' cell H; not_in_list H.
  - destruct s; cbn. split; [done|]. intros q' cell H; not_in_list H.
Qed.

(** ** The entry points for cells *)

(** C8: for a markup cell, [resumeCellExecution] and [executeCell]
    return after their first trace message: the object and the queues
    are as they were, no queue is created and the cell is not handed
    to any queue. *)
Theorem markup_cell_is_skipped
    (w : World) (s : State) (cell : NotebookCell)
    (info : ResumeCellExecutionInformation) (codeOverride : option string) :
  kind cell = Markup →
  let resumed := run (resumeCellExecution w cell info) s in
  let executed := run (executeCell w cell codeOverride) s in
  (state_after resumed = s ∧
   events resumed =
     [Did (TraceCellMessage cell
             "NotebookKernelExecution.resumeCellExecution (start)");
      Finished true] ∧
   result resumed = Fulfilled tt) ∧
  (state_after executed = s ∧
   events executed =
     [Did (TraceCellMessage cell "NotebookKernelExecution.executeCell (1)");
      Finished true] ∧
   result executed = Fulfilled tt).
Proof.
  intros Hk. cbn zeta.
  unfold resumeCellExecution, executeCell. rewrite Hk.
  async_eval. destruct s; cbn. done.
Qed.

(** The theorem at a markup cell of document 1. *)
Lemma markup_cell_is_skipped_witness :
  state_after (run (executeCell quiet_world markup_cell None) busy_queue_state)
  = busy_queue_state.
Proof.
  destruct (markup_cell_is_skipped quiet_world busy_queue_state markup_cell
              0 None) as (_ & H & _).
  - reflexivity.
  - exact H.
Defined.

(** C7: once [executeCell] has handed a cell to a queue, it waits for
    the completion of that cell on that queue and its own promise
    settles the way the wait does: it is rejected, with the same error,
    exactly when [waitForCompletion] is. *)
Theorem executeCell_rethrows
    (w : World) (s : State) (cell : NotebookCell)
    (codeOverride : option string) (q : QueueRef) :
  let r := run (executeCell w cell codeOverride) s in
  Did (QueueCell q cell codeOverride) ∈ events r →
  Invoked (WaitForCompletion q (Some cell)) ∈ events r ∧
  result r = waitForCompletion w q (Some cell) ∧
  (∀ e, result r = Rejected e ↔
        waitForCompletion w q (Some cell) = Rejected e).
Proof.
  cbn zeta. unfold executeCell.
  destruct (kind cell) eqn:Hk; async_eval.
  { intros Hin. not_in_list Hin. }
  destruct (restarting w) as [[]|e0]; cbn.
  2: { decided. intros Hin. not_in_list Hin. }
  destruct (start w (DisplayOptions false)) as [session|e1]; decided.
  2: { intros Hin. not_in_list Hin. }
  destruct (getOrCreateCellExecutionQueue _ (cell_notebook cell) _)
    as [s' q'] eqn:Hg; cbn.
  destruct (waitForCompletion w q' (Some cell)) as [[]|e2] eqn:Hw; decided.
  all: intros Hin; assert (q = q') as -> by (not_in_list Hin).
  all: rewrite Hw; split; [in_list|split; [done|done]].
Qed.

(** The theorem where the wait for the cell fails: the caller gets the
    error. *)
Lemma executeCell_rethrows_witness :
  result (run (executeCell failing_wait_world code_cell None) busy_queue_state)
  = Rejected "cancelled".
Proof.
  destruct (executeCell_rethrows failing_wait_world busy_queue_state
              code_cell None 0) as (_ & H & _).
  - vm_compute. in_list.
  - exact H.
Defined.

(** Whatever it does, [getOrCreateCellExecutionQueue] leaves the queue
    it returns stored for the document. *)
Lemma getOrCreateCellExecutionQueue_stores s document sessionPromise :
  documentExecutions (fst (getOrCreateCellExecutionQueue s document sessionPromise))
    !! document
  = Some (snd (getOrCreateCellExecutionQueue s document sessionPromise)).
Proof.
  unfold getOrCreateCellExecutionQueue.
  destruct (can_be_used s (documentExecutions s !! document)) as [q|] eqn:Hc;
    cbn.
  - by apply can_be_used_Some in Hc as [? _].
  - apply lookup_insert_eq.
Qed.

(** ** The entry point for code *)

(** C9: with one of the two built-in extension identifiers, the
    execution is created from the code and started on the session once
    the session promise resolves; no queue is looked up, created or
    given the code.  With any other identifier the execution is the one
    that queueing the code into the queue of the notebook gives, and
    this function neither creates an execution of its own nor starts
    one. *)
Theorem executeCode_queues_third_party_code_only
    (w : World) (JVSC_EXTENSION_ID POWER_TOYS_EXTENSION_ID : string)
    (s : State) (code extensionId : string) :
  let r := begin (executeCode_begin w JVSC_EXTENSION_ID POWER_TOYS_EXTENSION_ID
                    code extensionId) s in
  (extensionId = JVSC_EXTENSION_ID ∨ extensionId = POWER_TOYS_EXTENSION_ID →
   result r = Fulfilled (fromCode code extensionId) ∧
   Did (Created (fromCode code extensionId)) ∈ events r ∧
   (∀ q c x, Did (Created (queueCode q c x)) ∉ events r) ∧
   documentExecutions (state_after r) = documentExecutions s ∧
   queues (state_after r) = queues s ∧
   closeListeners (state_after r) = closeListeners s ∧
   (∀ x session,
      Did (StartExecution x session) ∈ events r ↔
      x = fromCode code extensionId ∧ restarting w = Fulfilled tt ∧
      start w (DisplayOptions true) = Fulfilled session)) ∧
  (extensionId ≠ JVSC_EXTENSION_ID → extensionId ≠ POWER_TOYS_EXTENSION_ID →
   ∃ q,
     result r = Fulfilled (queueCode q code extensionId) ∧
     documentExecutions (state_after r) !! notebook s = Some q ∧
     Did (Created (queueCode q code extensionId)) ∈ events r ∧
     (∀ c x, Did (Created (fromCode c x)) ∉ events r) ∧
     (∀ x session, Did (StartExecution x session) ∉ events r)).
Proof.
  cbn zeta. unfold executeCode_begin. split.
  - intros Hb.
    assert (bool_decide (extensionId = JVSC_EXTENSION_ID)
            || bool_decide (extensionId = POWER_TOYS_EXTENSION_ID) = true)
      as -> by (destruct Hb; repeat case_bool_decide; done).
    destruct (bool_decide (extensionId ≠ JVSC_EXTENSION_ID));
      async_eval;
      (destruct (restarting w) as [[]|e0]; cbn;
       [destruct (start w (DisplayOptions true)) as [session|e1]; cbn|]);
      decided.
    all: split; [done|]; split; [in_list|].
    all: split; [intros q c x Hin; not_in_list Hin|].
    all: do 3 (split; [done|]).
    all: intros x session'; split;
      [intros Hin; not_in_list Hin|intros (-> & ? & ?); try done].
    all: try (assert (session' = session) as -> by congruence); in_list.
  - intros H1 H2.
    rewrite (bool_decide_eq_false_2 _ H1), (bool_decide_eq_false_2 _ H2).
    rewrite (bool_decide_eq_true_2 _ H1).
    async_eval.
    destruct (restarting w) as [[]|e0]; cbn;
      [destruct (start w _) as [session|e1]; cbn|]; decided.
    all: match goal with
         | |- context [getOrCreateCellExecutionQueue ?a ?b ?c] =>
             pose proof (getOrCreateCellExecutionQueue_stores a b c) as Hs;
             destruct (getOrCreateCellExecutionQueue a b c) as [s' q] eqn:Hg
         end; cbn in *.
    all: exists q; split; [done|]; split; [done|]; split; [in_list|].
    all: split; [intros c x Hin; not_in_list Hin
                |intros x y Hin; not_in_list Hin].
Qed.
(** The theorem for the extension's own identifier: the code bypasses
    the queue. *)
Lemma executeCode_queues_third_party_code_only_witness :
  result (begin (executeCode_begin quiet_world "ms-toolsai.jupyter"
                   "ms-toolsai.vscode-jupyter-powertoys" "1+1"
                   "ms-toolsai.jupyter") busy_queue_state)
  = Fulfilled (fromCode "1+1" "ms-toolsai.jupyter").
Proof.
  destruct (executeCode_queues_third_party_code_only quiet_world
              "ms-toolsai.jupyter" "ms-toolsai.vscode-jupyter-powertoys"
              busy_queue_state "1+1" "ms-toolsai.jupyter") as [H _].
  destruct H as [H _]; [left; reflexivity|exact H].
Defined.

(** ** The visible execution count *)

Lemma keeps_mret {A} (a : A) : keeps_count (mret a).
Proof. by intros f. Qed.

Lemma keeps_throw {A} e : keeps_count (@throw A e).
Proof. by intros f. Qed.

Lemma keeps_bind {A B} (m : Async A) (k : A → Async B) :
  keeps_count m → (∀ a, keeps_count (k a)) → keeps_count (m ≫= k).
Proof.
  intros Hm Hk f. unfold mbind, Async_bind.
  specialize (Hm f). destruct (m f) as [f' [a|e]]; cbn in *; [|done].
  by rewrite Hk.
Qed.

Lemma keeps_attempt {A} (m : Async A) : keeps_count m → keeps_count (attempt m).
Proof. intros Hm f. unfold attempt. specialize (Hm f). by destruct (m f). Qed.

Lemma keeps_get_self : keeps_count get_self.
Proof. by intros f. Qed.

Lemma keeps_emit evs : keeps_count (emit evs).
Proof. by intros f. Qed.

Lemma keeps_do a : keeps_count (do_ a).
Proof. by intros f. Qed.

Lemma keeps_promise_of {A} c (o : outcome A) : keeps_count (promise_of c o).
Proof. by intros f. Qed.

Lemma keeps_invoke {A} c (o : outcome A) : keeps_count (invoke c o).
Proof.
  unfold invoke. apply keeps_bind; [apply keeps_emit|].
  intros _. apply keeps_promise_of.
Qed.

Lemma keeps_resolved {A} (v : A) : keeps_count (resolved v).
Proof. by intros f. Qed.

Lemma keeps_await {A} (p : Promise A) : keeps_count (await p).
Proof. by intros f. Qed.

Lemma keeps_derive {A B} (p : Promise A) (r : outcome A → Async B) :
  (∀ o, keeps_count (r o)) → keeps_count (derive p r).
Proof.
  intros Hr f. unfold derive, reaction.
  specialize (Hr (settles p) (mkFrame (self f) [] [])).
  destruct (r (settles p) _) as [f' o]. cbn in *. done.
Qed.

Lemma keeps_then {A B} (p : Promise A) (cb : A → Async B) :
  (∀ a, keeps_count (cb a)) → keeps_count (then_ p cb).
Proof.
  intros H. apply keeps_derive. intros [v|e]; [apply H|apply keeps_throw].
Qed.

Lemma keeps_catch {A} (p : Promise A) (cb : Error → Async A) :
  (∀ e, keeps_count (cb e)) → keeps_count (catch_ p cb).
Proof.
  intros H. apply keeps_derive. intros [v|e]; [apply keeps_mret|apply H].
Qed.

Lemma keeps_method {A} (m : State → State * A) :
  (∀ s, executionCount (fst (m s)) = executionCount s) →
  keeps_count (method m).
Proof.
  intros H f. unfold method. specialize (H (self f)).
  by destruct (m (self f)).
Qed.

Lemma getOrCreateCellExecutionQueue_keeps_count s document sessionPromise :
  executionCount (fst (getOrCreateCellExecutionQueue s document sessionPromise))
  = executionCount s.
Proof.
  unfold getOrCreateCellExecutionQueue. by destruct (can_be_used _ _).
Qed.

Create HintDb keeps.
#[global] Hint Resolve keeps_mret keeps_throw keeps_attempt keeps_get_self
  keeps_emit keeps_do keeps_promise_of keeps_invoke keeps_resolved
  keeps_await keeps_derive keeps_then keeps_catch keeps_method
  getOrCreateCellExecutionQueue_keeps_count : keeps.

(** Goes through a function bind by bind and branch by branch. *)
Ltac keeps :=
  repeat first
    [ progress intros
    | apply keeps_bind
    | apply keeps_then
    | apply keeps_catch
    | apply keeps_derive
    | apply keeps_attempt
    | match goal with
      | |- keeps_count (match ?x with _ => _ end) => destruct x
      | |- keeps_count (if ?x then _ else _) => destruct x
      | |- keeps_count (catch_noop _) => unfold catch_noop
      end
    | solve [eauto with keeps] ].

Lemma hookupIOPubHandler_keeps_count w : keeps_count (hookupIOPubHandler w).
Proof. unfold hookupIOPubHandler. keeps. Qed.

Lemma resumeCellExecution_keeps_count w cell info :
  keeps_count (resumeCellExecution w cell info).
Proof. unfold resumeCellExecution. keeps. Qed.

Lemma executeCell_keeps_count w cell codeOverride :
  keeps_count (executeCell w cell codeOverride).
Proof. unfold executeCell. keeps. Qed.

Lemma executeCode_begin_keeps_count w J P code extensionId :
  keeps_count (executeCode_begin w J P code extensionId).
Proof. unfold executeCode_begin. keeps. Qed.

Lemma executeHidden_keeps_count w code : keeps_count (executeHidden w code).
Proof. unfold executeHidden. keeps. Qed.

Lemma onWillInterrupt_keeps_count w : keeps_count (onWillInterrupt w).
Proof. unfold onWillInterrupt. keeps. Qed.

Lemma onWillCancel_keeps_count w : keeps_count (onWillCancel w).
Proof. unfold onWillCancel. keeps. Qed.

Lemma onWillRestart_keeps_count w sessionPromise :
  keeps_count (onWillRestart w sessionPromise).
Proof. unfold onWillRestart. keeps. Qed.

Lemma closeListener_keeps_count w document q e :
  keeps_count (closeListener w document q e).
Proof. unfold closeListener. keeps. Qed.

Lemma closeListeners_keep_count w e (l : list (NotebookDocument * QueueRef)) :
  keeps_count
    (foldr (fun l rest => attempt (closeListener w l.1 l.2 e);; rest)
       (mret tt) l).
Proof.
  induction l as [|x l IH]; cbn; [apply keeps_mret|].
  apply keeps_bind; [|by intros _].
  apply keeps_attempt, closeListener_keeps_count.
Qed.

Lemma state_after_run {A} (m : Async A) s :
  state_after (run m s) = self (m (mkFrame s [] [])).1.
Proof. unfold state_after, run. by destruct (m _). Qed.

Lemma keeps_count_run {A} (m : Async A) s :
  keeps_count m → executionCount (state_after (run m s)) = executionCount s.
Proof. intros H. rewrite state_after_run. apply H. Qed.

(** What the listener of the cell state does to the count. *)
Lemma cellExecutionStateChanged_count w J P s cell state :
  executionCount (step w J P s (cellExecutionStateChanged cell state)) =
  match executionOrder cell with
  | Some order =>
      if bool_decide (cell_notebook cell = kernel_notebook w)
         && bool_decide (state = Idle) && negb (order =? 0)%Z
      then Z.max (executionCount s) order
      else executionCount s
  | None => executionCount s
  end.
Proof.
  unfold step. rewrite state_after_run. cbn.
  unfold onDidChangeNotebookCellExecutionState, method. cbn.
  destruct (executionOrder cell) as [order|]; [|done].
  by destruct (_ && _ && _).
Qed.

Lemma step_keeps_count w J P s op :
  (∀ cell state, op ≠ cellExecutionStateChanged cell state) →
  op ≠ kernel_onStarted → op ≠ kernel_onRestarted →
  executionCount (step w J P s op) = executionCount s.
Proof.
  intros H1 H2 H3. unfold step. apply keeps_count_run.
  destruct op; cbn; try done.
  - apply hookupIOPubHandler_keeps_count.
  - by specialize (H1 cell state).
  - apply resumeCellExecution_keeps_count.
  - apply executeCell_keeps_count.
  - apply keeps_bind; [apply executeCode_begin_keeps_count|].
    intros _. apply keeps_mret.
  - apply keeps_bind; [apply executeHidden_keeps_count|].
    intros _. apply keeps_mret.
  - apply onWillInterrupt_keeps_count.
  - apply onWillCancel_keeps_count.
  - apply onWillRestart_keeps_count.
  - apply keeps_bind; [apply keeps_get_self|].
    intros s'. apply closeListeners_keep_count.
Qed.

Lemma step_reset w J P s :
  executionCount (step w J P s kernel_onStarted) = 0%Z ∧
  executionCount (step w J P s kernel_onRestarted) = 0%Z.
Proof.
  unfold step. rewrite !state_after_run. split; [done|].
  cbn. unfold mbind, Async_bind, reset_visibleExecutionCount, method. cbn.
  match goal with
  | |- context [hookupIOPubHandler w ?f] =>
      pose proof (hookupIOPubHandler_keeps_count w f) as H;
      destruct (hookupIOPubHandler w f) as [f' [a|e]]
  end; cbn in *; by rewrite H.
Qed.

Lemma constructor_count w notebook :
  executionCount (constructor w notebook) = 0%Z.
Proof.
  unfold constructor. rewrite keeps_count_run; [done|].
  apply hookupIOPubHandler_keeps_count.
Qed.

Lemma reachable_count_nonneg J P s :
  reachable J P s → (0 ≤ executionCount s)%Z.
Proof.
  induction 1 as [w notebook|w s op Hr IH].
  - by rewrite constructor_count.
  - destruct op; try (rewrite step_keeps_count; done).
    + by rewrite (proj1 (step_reset w J P s)).
    + by rewrite (proj2 (step_reset w J P s)).
    + rewrite cellExecutionStateChanged_count.
      destruct (executionOrder cell); [|done].
      destruct (_ && _ && _); lia.
Qed.

(** C10: the visible execution count is 0 when the object is built and
    after every started or restarted event of the kernel; a state
    change to idle of a cell of the kernel's notebook that carries an
    execution order sets it to the maximum of its value and that order;
    no other operation changes it; so between started and restarted
    events it never decreases. *)
Theorem executionCount_reset_and_max
    (JVSC_EXTENSION_ID POWER_TOYS_EXTENSION_ID : string) :
  let step w := step w JVSC_EXTENSION_ID POWER_TOYS_EXTENSION_ID in
  let reachable := reachable JVSC_EXTENSION_ID POWER_TOYS_EXTENSION_ID in
  (∀ w notebook, executionCount (constructor w notebook) = 0%Z) ∧
  (∀ w s, executionCount (step w s kernel_onStarted) = 0%Z ∧
          executionCount (step w s kernel_onRestarted) = 0%Z) ∧
  (∀ w s op order,
     reachable s → idle_with_order w op order →
     executionCount (step w s op) = Z.max (executionCount s) order) ∧
  (∀ w s op,
     op ≠ kernel_onStarted → op ≠ kernel_onRestarted →
     (∀ order, ¬ idle_with_order w op order) →
     executionCount (step w s op) = executionCount s) ∧
  (∀ w s op,
     reachable s → op ≠ kernel_onStarted → op ≠ kernel_onRestarted →
     (executionCount s ≤ executionCount (step w s op))%Z).
Proof.
  cbn zeta. split; [apply constructor_count|].
  split; [intros; apply step_reset|].
  split; [|split].
  - intros w s op order Hr (cell & -> & Hn & Ho).
    apply reachable_count_nonneg in Hr.
    rewrite cellExecutionStateChanged_count, Ho.
    rewrite !bool_decide_eq_true_2 by done. cbn.
    destruct (Z.eqb_spec order 0); cbn; [lia|done].
  - intros w s op H1 H2 Hn.
    destruct op; try (apply step_keeps_count; done).
    rewrite cellExecutionStateChanged_count.
    destruct (executionOrder cell) as [order|] eqn:Ho; [|done].
    repeat case_bool_decide; cbn; try done.
    destruct (Z.eqb_spec order 0); cbn; [done|].
    subst. destruct (Hn order). by exists cell.
  - intros w s op Hr H1 H2.
    destruct op; try (rewrite step_keeps_count; done).
    rewrite cellExecutionStateChanged_count.
    destruct (executionOrder cell); [|done].
    destruct (_ && _ && _); lia.
Qed.

(** The theorem after a first cell of document 1 finished as number 4. *)
Lemma executionCount_reset_and_max_witness :
  executionCount
    (step quiet_world "ms-toolsai.jupyter" "ms-toolsai.vscode-jupyter-powertoys"
       (constructor quiet_world 1)
       (cellExecutionStateChanged (mkCell 0 Code 1 (Some 4%Z)) Idle))
  = 4%Z.
Proof.
  destruct (executionCount_reset_and_max "ms-toolsai.jupyter"
              "ms-toolsai.vscode-jupyter-powertoys") as (_ & _ & H & _).
  rewrite (H quiet_world (constructor quiet_world 1)
             (cellExecutionStateChanged (mkCell 0 Code 1 (Some 4%Z)) Idle)
             4%Z).
  - reflexivity.
  - constructor.
  - eexists. split; [reflexivity|]. split; reflexivity.
Defined.

(** ** The loop of [executeCode] *)

Section GeneratorFacts.

Import Generator.

Lemma first_next_consistent : consistent first_next.
Proof. repeat split; cbn; try done; lia. Qed.

(** Every shape of state and input, one by one. *)
Ltac gen_cases g i :=
  let outs := fresh "outs" in
  let ctl := fresh "ctl" in
  let comp := fresh "comp" in
  let res := fresh "res" in
  let dn := fresh "dn" in
  let req := fresh "req" in
  let Hc := fresh "Hc" in
  let Hs := fresh "Hs" in
  let Hd := fresh "Hd" in
  let Hctl := fresh "Hctl" in
  destruct g as [outs comp res dn ? ? ctl req ? ?];
  unfold consistent, in_flight; cbn;
  intros (Hc & Hs & Hd & Hctl); subst;
  destruct i as [?|[]| | | |?]; cbn;
  unfold on_next, on_resume, continue; cbn;
  destruct comp; cbn in *;
  destruct res as [[]|]; cbn in *;
  try (by destruct Hc as [? ?]);
  destruct dn as [[]|]; cbn in *;
  try (by destruct (Hd _ eq_refl) as [? ?]);
  destruct ctl as [[[]|]| | |]; cbn in *;
  destruct outs as [|? outs]; cbn in *;
  try (destruct req as [|[|req]]; cbn in *).

Lemma react_consistent g i : consistent g → consistent (react g i).
Proof.
  gen_cases g i;
    intuition (try done; try lia; try congruence; try (by eexists)).
Qed.

Lemma react_stream g i :
  consistent g → stream (react g i) = stream g ++ added g i.
Proof.
  unfold stream.
  gen_cases g i; rewrite <-?app_assoc, ?app_nil_r; cbn;
    intuition (try done; try lia; try congruence).
Qed.

Lemma react_subscribed g i :
  consistent g →
  subscribed (react g i) =
  match i, result_result g with
  | finally_reaction, Some _ => false
  | _, _ => subscribed g
  end.
Proof.
  gen_cases g i; intuition (try done; try lia; try congruence).
Qed.

Lemma react_result g i :
  result_result (react g i) =
  match i, result_result g with
  | result_settles ok, None => Some ok
  | _, _ => result_result g
  end.
Proof.
  destruct g as [outs comp res dn sub ses ctl req yld trk].
  destruct i as [e|ok| | | |ks]; cbn;
    unfold on_next, on_resume, continue; cbn.
  - by destruct sub.
  - by destruct res.
  - destruct res; [|done]. by destruct comp.
  - destruct res; [|done]. destruct dn; [done|]. by destruct comp.
  - destruct ctl as [[[]|]| | |]; cbn; try done.
    destruct outs; cbn; [|done]. by destruct dn.
  - destruct ctl as [[[]|]| | |]; cbn; try done.
    + destruct outs; cbn; [|done]. by destruct dn.
    + destruct (_ =? _)%nat; cbn; [done|].
      destruct outs; cbn; [|done]. by destruct dn.
Qed.

Lemma foldl_react_consistent ins g :
  consistent g → consistent (foldl react g ins).
Proof.
  revert g. induction ins as [|i ins IH]; intros g Hg; cbn; [done|].
  by apply IH, react_consistent.
Qed.

Lemma foldl_react_stream ins g :
  consistent g →
  stream (foldl react g ins) =
  stream g ++
  (if subscribed g
   then heard (if result_result g is Some _ then true else false) ins
   else []).
Proof.
  revert g. induction ins as [|i ins IH]; intros g Hg.
  - cbn. destruct (subscribed g); by rewrite !app_nil_r.
  - change (foldl react g (i :: ins)) with (foldl react (react g i) ins).
    rewrite IH by by apply react_consistent.
    rewrite react_stream, react_subscribed, react_result by done.
    rewrite <-!app_assoc. f_equal.
    destruct i; cbn [heard added]; destruct (subscribed g);
      destruct (result_result g); by rewrite ?app_nil_r.
Qed.


(** Apart from an emission and the settlement of the result promise,
    no input gives the generator more to do. *)
Lemma react_fuel g i :
  consistent g →
  (if i is onDidEmitOutput _ then False else
   if i is result_settles _ then False else True) →
  (fuel (react g i) ≤ fuel g)%nat.
Proof.
  unfold fuel.
  gen_cases g i; intuition (try done; try lia; try congruence).
Qed.

(** Once the reactions on the result promise have had their turn,
    [done] is completed when the promise has settled. *)
Lemma jobs_done g :
  consistent g →
  is_Some (result_result g) →
  is_Some (done (react (react g finally_reaction) done_reaction)).
Proof.
  destruct g as [outs comp res dn sub ses ctl req yld trk].
  unfold consistent; cbn. intros (Hc & Hs & Hd & Hctl) [ok ->]; subst.
  destruct comp, dn; cbn; by eexists.
Qed.

Lemma resume_next_fuel g :
  consistent g → fuel g ≠ 0 →
  (is_Some (result_result g) → is_Some (done g)) →
  (fuel (react (react g (resume None)) next) < fuel g)%nat.
Proof.
  destruct g as [outs comp res dn sub ses ctl req yld trk].
  unfold consistent, fuel; cbn. intros (Hc & Hs & Hd & Hctl) Hf Hj; subst.
  unfold on_next, on_resume, continue; cbn.
  destruct res as [ok|], dn as [ok'|]; cbn in *;
    try (by destruct Hj as [? ?]; [by eexists|]);
    destruct ctl as [[[]|]| | |]; cbn in *;
    destruct outs as [|x outs]; cbn in *;
    try (destruct req as [|[|req]]; cbn in *);
    intuition (try done; try lia; try congruence).
Qed.

Lemma pull_round_fuel g :
  consistent g → fuel g ≠ 0 →
  (fuel (react (react (react (react g finally_reaction) done_reaction)
                  (resume None)) next) < fuel g)%nat.
Proof.
  intros Hg Hf.
  set (g2 := react (react g finally_reaction) done_reaction).
  assert (consistent g2) as Hg2 by by do 2 apply react_consistent.
  assert (fuel g2 ≤ fuel g)%nat as H2.
  { etrans; [apply react_fuel; [by apply react_consistent|done]|].
    by apply react_fuel. }
  destruct (decide (fuel g2 = 0)) as [H0|H0].
  - assert (fuel (react (react g2 (resume None)) next) ≤ fuel g2)%nat.
    { etrans; [apply react_fuel; [by apply react_consistent|done]|].
      by apply react_fuel. }
    lia.
  - pose proof (resume_next_fuel g2 Hg2 H0) as H.
    assert (is_Some (result_result g2) → is_Some (done g2)) as Hj.
    { unfold g2. rewrite !react_result.
      replace (match result_result g with Some _ | _ => result_result g end)
        with (result_result g) by by destruct (result_result g).
      replace (match result_result g with Some _ | _ => result_result g end)
        with (result_result g) by by destruct (result_result g).
      by apply jobs_done. }
    specialize (H Hj). lia.
Qed.

Lemma pull_round_result g :
  result_result (react (react (react (react g finally_reaction) done_reaction)
                          (resume None)) next) = result_result g.
Proof. rewrite !react_result. by destruct (result_result g). Qed.

Lemma no_fuel g :
  consistent g → fuel g = 0 →
  in_flight g = [] ∧ outputs g = [] ∧
  (is_Some (result_result g) → ∃ returned, control g = Completed returned).
Proof.
  destruct g as [outs comp res dn sub ses ctl req yld trk].
  unfold consistent, fuel, in_flight; cbn.
  intros (Hc & Hs & Hd & Hctl) Hf; subst.
  destruct ctl as [[[]|]| | |]; cbn in *; try lia;
    destruct outs as [|x outs]; cbn in *; try lia.
  all: repeat split; try done.
  all: try (intros _; by eexists).
  intros [ok ->]. destruct Hctl as (_ & -> & _). lia.
Qed.

Lemma pull_S k g :
  foldl react g (pull (S k)) =
  foldl react (react (react (react (react g finally_reaction) done_reaction)
                        (resume None)) next) (pull k).
Proof. done. Qed.

Lemma heard_pull b k : heard b (pull k) = [].
Proof.
  induction k as [|k IH]; [done|].
  change (pull (S k))
    with (finally_reaction :: done_reaction :: resume None :: next :: pull k).
  cbn. by destruct b.
Qed.

Lemma heard_app_pull b ins k : heard b (ins ++ pull k) = heard b ins.
Proof.
  revert b. induction ins as [|i ins IH]; intros b; [apply heard_pull|].
  destruct i; cbn; by rewrite ?IH.
Qed.

(** A consumer that keeps pulling gets the generator to use up its
    fuel. *)
Lemma pull_drains n g :
  consistent g → (fuel g ≤ n)%nat →
  ∃ k, fuel (foldl react g (pull k)) = 0 ∧
       result_result (foldl react g (pull k)) = result_result g.
Proof.
  revert g. induction n as [|n IH]; intros g Hg Hn.
  - exists 0. change (foldl react g (pull 0)) with g. split; [lia|done].
  - destruct (decide (fuel g = 0)) as [H0|H0]; [by exists 0|].
    destruct (IH (react (react (react (react g finally_reaction) done_reaction)
                           (resume None)) next)) as (k & Hk & Hd).
    + by do 4 apply react_consistent.
    + pose proof (pull_round_fuel g Hg H0). lia.
    + exists (S k). rewrite pull_S. split; [done|].
      by rewrite Hd, pull_round_result.
Qed.






End GeneratorFacts.


(** * Further properties *)

(** ** Relations that every operation respects *)

Section Respects.

Variable R : State → State → Prop.
Hypothesis R_refl : ∀ s, R s s.
Hypothesis R_trans : ∀ s1 s2 s3, R s1 s2 → R s2 s3 → R s1 s3.
Hypothesis R_new_promise : ∀ s, R s (new_promise s).

Lemma respects_mret {A} (a : A) : respects R (mret a).
Proof. intros f. apply R_refl. Qed.

Lemma respects_throw {A} e : respects R (@throw A e).
Proof. intros f. apply R_refl. Qed.

Lemma respects_bind {A B} (m : Async A) (k : A → Async B) :
  respects R m → (∀ a, respects R (k a)) → respects R (m ≫= k).
Proof.
  intros Hm Hk f. unfold mbind, Async_bind.
  specialize (Hm f). destruct (m f) as [f' [a|e]]; cbn in *; [|done].
  eapply R_trans; [exact Hm|apply Hk].
Qed.

Lemma respects_attempt {A} (m : Async A) :
  respects R m → respects R (attempt m).
Proof. intros Hm f. unfold attempt. specialize (Hm f). by destruct (m f). Qed.

Lemma respects_get_self : respects R get_self.
Proof. intros f. apply R_refl. Qed.

Lemma respects_emit evs : respects R (emit evs).
Proof. intros f. apply R_refl. Qed.

Lemma respects_do a : respects R (do_ a).
Proof. intros f. apply R_refl. Qed.

Lemma respects_promise_of {A} c (o : outcome A) : respects R (promise_of c o).
Proof. intros f. apply R_new_promise. Qed.

Lemma respects_invoke {A} c (o : outcome A) : respects R (invoke c o).
Proof.
  unfold invoke. apply respects_bind; [apply respects_emit|].
  intros _. apply respects_promise_of.
Qed.

Lemma respects_resolved {A} (v : A) : respects R (resolved v).
Proof. intros f. apply R_new_promise. Qed.

Lemma respects_await {A} (p : Promise A) : respects R (await p).
Proof. intros f. apply R_refl. Qed.

Lemma respects_derive {A B} (p : Promise A) (r : outcome A → Async B) :
  (∀ o, respects R (r o)) → respects R (derive p r).
Proof.
  intros Hr f. unfold derive, reaction.
  specialize (Hr (settles p) (mkFrame (self f) [] [])).
  destruct (r (settles p) _) as [f' o]. cbn in *.
  eapply R_trans; [exact Hr|apply R_new_promise].
Qed.

Lemma respects_then {A B} (p : Promise A) (cb : A → Async B) :
  (∀ a, respects R (cb a)) → respects R (then_ p cb).
Proof.
  intros H. apply respects_derive.
  intros [v|e]; [apply H|apply respects_throw].
Qed.

Lemma respects_catch {A} (p : Promise A) (cb : Error → Async A) :
  (∀ e, respects R (cb e)) → respects R (catch_ p cb).
Proof.
  intros H. apply respects_derive.
  intros [v|e]; [apply respects_mret|apply H].
Qed.

Lemma respects_method {A} (m : State → State * A) :
  (∀ s, R s (fst (m s))) → respects R (method m).
Proof.
  intros H f. unfold method. specialize (H (self f)).
  by destruct (m (self f)).
Qed.

(** What the object itself does to its state. *)
Hypothesis R_getOrCreate : ∀ s document sessionPromise,
  R s (fst (getOrCreateCellExecutionQueue s document sessionPromise)).
Hypothesis R_count : ∀ n s, R s (set_visibleExecutionCount n s).
Hypothesis R_hookup : ∀ w, respects R (hookupIOPubHandler w).

Ltac respects :=
  repeat first
    [ match goal with
      | |- ∀ _, _ => intro
      | |- _ → _ => intro
      end
    | apply R_hookup
    | apply respects_bind
    | apply respects_then
    | apply respects_catch
    | apply respects_derive
    | apply respects_attempt
    | apply respects_mret
    | apply respects_throw
    | apply respects_get_self
    | apply respects_emit
    | apply respects_do
    | apply respects_promise_of
    | apply respects_invoke
    | apply respects_resolved
    | apply respects_await
    | apply R_hookup
    | apply respects_method; intros;
      first [apply R_getOrCreate|apply R_count|cbn [fst]; apply R_count]
    | match goal with
      | |- respects R (match ?x with _ => _ end) => destruct x
      | |- respects R (if ?x then _ else _) => destruct x
      | |- respects R (catch_noop _) => unfold catch_noop
      end ].

Lemma respects_closeListeners w e (l : list (NotebookDocument * QueueRef)) :
  respects R
    (foldr (fun l rest => attempt (closeListener w l.1 l.2 e);; rest)
       (mret tt) l).
Proof.
  induction l as [|x l IH]; cbn; [apply respects_mret|].
  apply respects_bind; [|by intros _].
  apply respects_attempt. unfold closeListener. respects.
Qed.

Lemma respects_perform w J P op : respects R (perform w J P op).
Proof.
  destruct op; cbn;
    unfold reset_visibleExecutionCount, onDidChangeNotebookCellExecutionState,
      resumeCellExecution, executeCell, executeCode_begin, executeHidden,
      onWillInterrupt, onWillCancel, onWillRestart;
    try (respects; fail).
  - apply respects_method. intros s.
    destruct (executionOrder cell); [|apply R_refl].
    destruct (_ && _ && _); [apply R_count|apply R_refl].
  - apply respects_bind; [apply respects_get_self|].
    intros s. apply respects_closeListeners.
Qed.

Lemma respects_step w J P s op : R s (step w J P s op).
Proof.
  unfold step. rewrite state_after_run.
  apply (respects_perform w J P op (mkFrame s [] [])).
Qed.

End Respects.

(** ** Nothing is ever taken away *)

Lemma grows_refl s : grows s s.
Proof. repeat split; try done. Qed.

Lemma grows_trans s1 s2 s3 : grows s1 s2 → grows s2 s3 → grows s1 s3.
Proof.
  intros (H1 & H2 & H3 & H4 & H5 & H6 & H7) (G1 & G2 & G3 & G4 & G5 & G6 & G7).
  repeat split.
  - by etrans.
  - by etrans.
  - by etrans.
  - by etrans.
  - by etrans.
  - congruence.
  - lia.
Qed.

Lemma grows_new_promise s : grows s (new_promise s).
Proof. repeat split; try done. cbn. lia. Qed.

Lemma grows_count n s : grows s (set_visibleExecutionCount n s).
Proof. repeat split; try done. Qed.

Lemma grows_getOrCreate s document sessionPromise :
  grows s (fst (getOrCreateCellExecutionQueue s document sessionPromise)).
Proof.
  unfold getOrCreateCellExecutionQueue.
  destruct (can_be_used _ _); cbn; [apply grows_refl|].
  repeat split; cbn; try done.
  - by apply prefix_app_r.
  - by apply prefix_app_r.
  - rewrite dom_insert. set_solver.
  - rewrite dom_insert. set_solver.
Qed.

Lemma grows_hookup w : respects grows (hookupIOPubHandler w).
Proof.
  intros f. unfold hookupIOPubHandler. async_unfold. cbn.
  destruct (session w) as [x|]; cbn; [|apply grows_refl].
  case_bool_decide; cbn; [apply grows_refl|].
  repeat split; cbn; try done.
  - by apply prefix_app_r.
  - set_solver.
Qed.

Lemma grows_step w J P s op : grows s (step w J P s op).
Proof.
  apply respects_step.
  - apply grows_refl.
  - apply grows_trans.
  - apply grows_new_promise.
  - apply grows_getOrCreate.
  - apply grows_count.
  - apply grows_hookup.
Qed.

Lemma grows_queue_activity s s' : queue_activity s s' → grows s s'.
Proof.
  intros (_ & Hde & Hh & Hd & Hn & Hl & Hp & Hdom & _).
  unfold grows. by rewrite Hde, Hh, Hd, Hn, Hl, Hp, Hdom.
Qed.

(** X1.  Nothing is ever taken away, whatever operations are performed
    and whatever the queues do in between: the disposables and the close
    listeners of before are still there, in their places, every hooked
    session is still hooked, every document that had a queue has one,
    and every queue is still there.  So nothing is disposed of or
    unregistered, not by the will-cancel hook and not when a document is
    closed, and a queue that was replaced stays with its listener. *)
Theorem operations_only_add
    (JVSC_EXTENSION_ID POWER_TOYS_EXTENSION_ID : string) (s s' : State) :
  later JVSC_EXTENSION_ID POWER_TOYS_EXTENSION_ID s s' → grows s s'.
Proof.
  induction 1 as [s|w s s' op Hl IH|s s' s'' Hl IH Ha].
  - apply grows_refl.
  - eapply grows_trans; [exact IH|apply grows_step].
  - eapply grows_trans; [exact IH|by apply grows_queue_activity].
Qed.

(** The theorem for the closing of document 1, whose queue is idle: the
    queue is cancelled, and it, its listener and its entry stay. *)
Lemma operations_only_add_witness :
  grows idle_queue_state
    (step quiet_world "ms-toolsai.jupyter" "ms-toolsai.vscode-jupyter-powertoys"
       idle_queue_state (documentClosed 1)).
Proof.
  apply (operations_only_add "ms-toolsai.jupyter"
           "ms-toolsai.vscode-jupyter-powertoys").
  apply later_step, later_now.
Defined.

(** ** The queue map, the queues and the listeners fit together *)

Lemma well_formed_getOrCreate s document sessionPromise :
  well_formed s →
  well_formed (fst (getOrCreateCellExecutionQueue s document sessionPromise)).
Proof.
  unfold getOrCreateCellExecutionQueue.
  destruct (can_be_used _ _); cbn; [done|].
  intros (Hd & Hl & Hn).
  pose proof (is_fresh (dom (queues s))) as Hf.
  set (q' := fresh (dom (queues s))) in *.
  split; [|split]; cbn.
  - intros d q. rewrite dom_insert, elem_of_app.
    destruct (decide (d = document)) as [->|Hne].
    + rewrite lookup_insert_eq. intros [= <-]. split; [set_solver|].
      right. by apply list_elem_of_singleton.
    + rewrite lookup_insert_ne by done. intros H.
      destruct (Hd d q H). split; [set_solver|by left].
  - intros d q. rewrite dom_insert, elem_of_app.
    intros [H|H]; [apply Hl in H; set_solver|].
    apply list_elem_of_singleton in H as [= _ ->]. set_solver.
  - rewrite fmap_app. apply NoDup_app. split; [done|]. split.
    + intros q Hq Hq'. cbn in Hq'.
      apply list_elem_of_singleton in Hq' as ->.
      apply list_elem_of_fmap in Hq as ([d q] & Heq & Hin). cbn in Heq.
      subst. by apply Hl in Hin.
    + cbn. apply NoDup_singleton.
Qed.

Lemma well_formed_hookup w :
  respects (fun s s' => well_formed s → well_formed s')
    (hookupIOPubHandler w).
Proof.
  intros f. unfold hookupIOPubHandler. async_unfold. cbn.
  destruct (session w) as [x|]; cbn; [|done].
  by case_bool_decide.
Qed.

Lemma running_well_formed_inv J P s : running J P s → well_formed s.
Proof.
  induction 1 as [w notebook|w s op Hr IH|s s' Hr IH Hq].
  - unfold constructor. rewrite state_after_run.
    apply (well_formed_hookup w (mkFrame _ [] [])).
    split; [|split]; cbn.
    + intros d q H. by rewrite lookup_empty in H.
    + intros d q H. by apply elem_of_nil in H.
    + apply NoDup_nil_2.
  - revert IH.
    apply (respects_step (fun s s' => well_formed s → well_formed s')).
    + done.
    + intros s1 s2 s3 H12 H23 H1. by apply H23, H12.
    + done.
    + intros. by apply well_formed_getOrCreate.
    + done.
    + apply well_formed_hookup.
  - destruct Hq as (_ & Hd & _ & _ & _ & Hl & _ & Hdom & _).
    destruct IH as (I1 & I2 & I3).
    split; [|split]; rewrite ?Hd, ?Hl, ?Hdom; done.
Qed.

(** X2.  In every state of a running object, whatever the operations
    and whatever the queues did in between: the queue recorded for a
    document is a queue that exists and has a close listener for that
    very document, every close listener is for a queue that exists, and
    no queue has more than one close listener. *)
Theorem running_well_formed
    (JVSC_EXTENSION_ID POWER_TOYS_EXTENSION_ID : string) (s : State) :
  running JVSC_EXTENSION_ID POWER_TOYS_EXTENSION_ID s → well_formed s.
Proof. intros Hr. by eapply running_well_formed_inv. Qed.

(** ** Each session is hooked once *)

Lemma connected_app s l :
  omap (fun d => if d is iopub_disposable x then Some x else None)
    (disposables s ++ l)
  = connected s ++
    omap (fun d => if d is iopub_disposable x then Some x else None) l.
Proof. unfold connected. apply omap_app. Qed.

Lemma hooked_once_getOrCreate s document sessionPromise :
  hooked_once s →
  hooked_once (fst (getOrCreateCellExecutionQueue s document sessionPromise)).
Proof.
  unfold getOrCreateCellExecutionQueue.
  destruct (can_be_used _ _); cbn; [done|].
  unfold hooked_once, connected at 1 3. cbn.
  rewrite connected_app. cbn. by rewrite app_nil_r.
Qed.

Lemma hooked_once_hookup w :
  respects (fun s s' => hooked_once s → hooked_once s')
    (hookupIOPubHandler w).
Proof.
  intros f. unfold hookupIOPubHandler. async_unfold. cbn.
  destruct (session w) as [x|]; cbn; [|done].
  case_bool_decide as Hx; cbn; [done|].
  intros (Hn & Hiff). unfold hooked_once, connected at 1 2. cbn.
  rewrite connected_app. cbn. split.
  - apply NoDup_app. split; [done|]. split; [|apply NoDup_singleton].
    intros y Hy Hy'. apply list_elem_of_singleton in Hy' as ->.
    by apply Hx, Hiff.
  - intros y. rewrite elem_of_app, list_elem_of_singleton, Hiff. set_solver.
Qed.

(** X3.  In every state of a running object, however often the status
    of the kernel changed and the kernel restarted: the object has put
    at most one handler on the iopub signal of any session, and it has
    put one exactly on the sessions in [hookedSesions]. *)
Theorem running_hooked_once
    (JVSC_EXTENSION_ID POWER_TOYS_EXTENSION_ID : string) (s : State) :
  running JVSC_EXTENSION_ID POWER_TOYS_EXTENSION_ID s → hooked_once s.
Proof.
  induction 1 as [w notebook|w s op Hr IH|s s' Hr IH Hq].
  - unfold constructor. rewrite state_after_run.
    apply (hooked_once_hookup w (mkFrame _ [] [])).
    split; cbn; [apply NoDup_nil_2|].
    intros x. split; intros H; [by apply elem_of_nil in H|set_solver].
  - revert IH.
    apply (respects_step (fun s s' => hooked_once s → hooked_once s')).
    + done.
    + intros s1 s2 s3 H12 H23 H1. by apply H23, H12.
    + done.
    + intros. by apply hooked_once_getOrCreate.
    + done.
    + apply hooked_once_hookup.
  - destruct Hq as (_ & _ & Hh & Hd & _).
    unfold hooked_once, connected in *. by rewrite Hd, Hh.
Qed.

(** The theorems above after a first piece of third-party code. *)
Lemma running_well_formed_witness :
  well_formed
    (step quiet_world "ms-toolsai.jupyter" "ms-toolsai.vscode-jupyter-powertoys"
       (constructor quiet_world 1) (call_executeCode "1+1" "some.extension")).
Proof.
  apply (running_well_formed "ms-toolsai.jupyter"
           "ms-toolsai.vscode-jupyter-powertoys").
  apply running_step, running_constructor.
Defined.

Lemma running_hooked_once_witness :
  hooked_once
    (step quiet_world "ms-toolsai.jupyter" "ms-toolsai.vscode-jupyter-powertoys"
       (constructor quiet_world 1) kernel_onStatusChanged).
Proof.
  apply (running_hooked_once "ms-toolsai.jupyter"
           "ms-toolsai.vscode-jupyter-powertoys").
  apply running_step, running_constructor.
Defined.

(** ** More on the entry points for cells *)

(** X4.  For a code cell, [resumeCellExecution] hands the cell to the
    queue of its notebook without waiting for the kernel to start, then
    waits for the cell, and ends well whether that wait succeeds or
    fails: the failure is only logged. *)
Theorem resumeCellExecution_never_rejects
    (w : World) (s : State) (cell : NotebookCell)
    (info : ResumeCellExecutionInformation) :
  kind cell = Code →
  let r := run (resumeCellExecution w cell info) s in
  ∃ q,
    let ok := is_fulfilled (waitForCompletion w q (Some cell)) in
    result r = Fulfilled tt ∧
    documentExecutions (state_after r) !! cell_notebook cell = Some q ∧
    events r =
      [Did (TraceCellMessage cell
              "NotebookKernelExecution.resumeCellExecution (start)");
       Did (SendKernelTelemetryEvent "ResumeCellExecution");
       Invoked (Start (DisplayOptions false));
       Did (ResumeCell q cell info);
       Invoked (WaitForCompletion q (Some cell));
       Settled (WaitForCompletion q (Some cell)) ok;
       Did (TraceCellMessage cell
              "NotebookKernelExecution.resumeCellExecution (completed)");
       Did (Log (if ok then "Cell executed successfully"
                 else "Cell executed with an error"));
       Finished true].
Proof.
  intros Hk. cbn zeta. unfold resumeCellExecution. rewrite Hk.
  async_eval.
  match goal with
  | |- context [getOrCreateCellExecutionQueue ?a ?b ?c] =>
      pose proof (getOrCreateCellExecutionQueue_stores a b c) as Hs;
      destruct (getOrCreateCellExecutionQueue a b c) as [s' q] eqn:Hg
  end; cbn in *.
  exists q.
  destruct (waitForCompletion w q (Some cell)) as [[]|e]; decided; done.
Qed.

(** The theorem where the wait fails. *)
Lemma resumeCellExecution_never_rejects_witness :
  result (run (resumeCellExecution failing_wait_world code_cell 0)
            busy_queue_state)
  = Fulfilled tt.
Proof.
  destruct (resumeCellExecution_never_rejects failing_wait_world
              busy_queue_state code_cell 0) as (q & H & _).
  - reflexivity.
  - exact H.
Defined.

(** X5.  When the kernel fails to restart or to start, [executeCell]
    is rejected with that error before it looks at the queues: no queue
    is created, the cell is handed to none, nothing is waited for and
    the ExecuteCell telemetry is not sent. *)
Theorem executeCell_without_session
    (w : World) (s : State) (cell : NotebookCell)
    (codeOverride : option string) (e : Error) :
  kind cell = Code →
  restarting w = Rejected e ∨
  (restarting w = Fulfilled tt ∧ start w (DisplayOptions false) = Rejected e) →
  let r := run (executeCell w cell codeOverride) s in
  result r = Rejected e ∧
  queues (state_after r) = queues s ∧
  documentExecutions (state_after r) = documentExecutions s ∧
  closeListeners (state_after r) = closeListeners s ∧
  (∀ q c o, Did (QueueCell q c o) ∉ events r) ∧
  (∀ q c, Invoked (WaitForCompletion q c) ∉ events r) ∧
  Did (SendKernelTelemetryEvent "ExecuteCell") ∉ events r.
Proof.
  intros Hk Hw. cbn zeta. unfold executeCell. rewrite Hk. async_eval.
  destruct Hw as [Hr|[Hr Hs]]; rewrite Hr; cbn; [|rewrite Hs; cbn]; decided.
  all: repeat split; try done.
  all: try (intros q c o Hin; not_in_list Hin).
  all: try (intros q c Hin; not_in_list Hin).
  all: intros Hin; not_in_list Hin.
Qed.

(** The theorem where the kernel cannot be started. *)
Lemma executeCell_without_session_witness :
  result (run (executeCell no_kernel_world code_cell None) busy_queue_state)
  = Rejected "no kernel".
Proof.
  destruct (executeCell_without_session no_kernel_world busy_queue_state
              code_cell None "no kernel") as (H & _).
  - reflexivity.
  - right. split; reflexivity.
  - exact H.
Defined.

(** X6.  For a code cell and a kernel that starts, [executeCell] first
    waits for the restart, then starts the kernel and waits for the
    session, only then hands the cell to the queue and waits for it;
    the closing trace message, the log line and the ExecuteCell
    telemetry come after that wait has settled, in success and in
    failure alike. *)
Theorem executeCell_sequence
    (w : World) (s : State) (cell : NotebookCell)
    (codeOverride : option string) (session : IKernelSession) :
  kind cell = Code →
  restarting w = Fulfilled tt →
  start w (DisplayOptions false) = Fulfilled session →
  let r := run (executeCell w cell codeOverride) s in
  ∃ q,
    let ok := is_fulfilled (waitForCompletion w q (Some cell)) in
    documentExecutions (state_after r) !! cell_notebook cell = Some q ∧
    events r =
      [Did (TraceCellMessage cell "NotebookKernelExecution.executeCell (1)");
       Did (TraceCellMessage cell "NotebookKernelExecution.executeCell (2)");
       Did (TraceCellMessage cell "NotebookKernelExecution.executeCell (3)");
       Settled Restarting true;
       Invoked (Start (DisplayOptions false));
       Settled (Start (DisplayOptions false)) true;
       Did (QueueCell q cell codeOverride);
       Did (TraceCellMessage cell "NotebookKernelExecution.executeCell (4)");
       Invoked (WaitForCompletion q (Some cell));
       Settled (WaitForCompletion q (Some cell)) ok;
       Did (TraceCellMessage cell
              "NotebookKernelExecution.executeCell completed (5)");
       Did (Log (if ok then "Cell executed successfully"
                 else "Cell executed with an error"));
       Did (SendKernelTelemetryEvent "ExecuteCell");
       Finished ok].
Proof.
  intros Hk Hr Hs. cbn zeta. unfold executeCell. rewrite Hk.
  async_eval. rewrite Hr. cbn. rewrite Hs. decided.
  match goal with
  | |- context [getOrCreateCellExecutionQueue ?a ?b ?c] =>
      pose proof (getOrCreateCellExecutionQueue_stores a b c) as Hst;
      destruct (getOrCreateCellExecutionQueue a b c) as [s' q] eqn:Hg
  end; cbn in *.
  exists q.
  destruct (waitForCompletion w q (Some cell)) as [[]|e]; decided; done.
Qed.

(** The theorem where the wait for the cell fails. *)
Lemma executeCell_sequence_witness :
  ∃ q, documentExecutions
         (state_after (run (executeCell failing_wait_world code_cell None)
                         busy_queue_state)) !! 1 = Some q.
Proof.
  destruct (executeCell_sequence failing_wait_world busy_queue_state
              code_cell None 3) as (q & H & _).
  - reflexivity.
  - reflexivity.
  - reflexivity.
  - exists q. exact H.
Defined.

(** ** The hooks when the notebook has no queue *)

(** X7.  With no queue for the notebook, an interrupt calls nothing:
    for a kernel that is not a live remote one the handler returns at
    once, without even the log line and leaving the state as it was;
    for a live remote kernel it writes the log line and returns. *)
Theorem onWillInterrupt_without_queue (w : World) (s : State) :
  documentExecutions s !! notebook s = None →
  let r := run (onWillInterrupt w) s in
  result r = Fulfilled tt ∧
  state_after r = s ∧
  events r =
    (if connectToLiveRemoteKernel w
     then [Did (Log "Interrupt kernel execution")] else [])
    ++ [Finished true].
Proof.
  intros Hq. cbn zeta. unfold onWillInterrupt. async_eval. rewrite Hq. cbn.
  destruct (connectToLiveRemoteKernel w); cbn; by destruct s.
Qed.

(** The state right after the constructor, for notebook 1. *)
Lemma onWillInterrupt_without_queue_witness :
  events (run (onWillInterrupt quiet_world) (constructor quiet_world 1))
  = [Finished true].
Proof.
  destruct (onWillInterrupt_without_queue quiet_world
              (constructor quiet_world 1)) as (_ & _ & H).
  - reflexivity.
  - exact H.
Defined.

(** X8.  With no queue for the notebook, a restart makes no call on
    any queue and always ends well; it writes its log line exactly when
    no session was obtained (no promise given, or one that rejects). *)
Theorem onWillRestart_without_queue
    (w : World) (s : State)
    (sessionPromise : option (outcome IKernelSession)) :
  documentExecutions s !! notebook s = None →
  let r := run (onWillRestart w sessionPromise) s in
  result r = Fulfilled tt ∧
  (∀ c, Invoked c ∉ events r) ∧
  (Did (Log "No kernel session to interrupt") ∈ events r ↔
   ∀ session, sessionPromise ≠ Some (Fulfilled session)).
Proof.
  intros Hq. cbn zeta. unfold onWillRestart. async_eval. rewrite Hq. cbn.
  destruct sessionPromise as [[session|e]|]; decided.
  all: split; [done|]; split; [intros c Hin; not_in_list Hin|].
  all: split; [intros Hin; try (intros ? [=]); not_in_list Hin|].
  all: intros Hall; try in_list.
  by destruct (Hall session).
Qed.

Lemma onWillRestart_without_queue_witness :
  result (run (onWillRestart quiet_world None) (constructor quiet_world 1))
  = Fulfilled tt.
Proof.
  destruct (onWillRestart_without_queue quiet_world
              (constructor quiet_world 1) None) as (H & _).
  - reflexivity.
  - exact H.
Defined.

(** ** executeHidden *)

(** X9.  [executeHidden] never touches the queues.  The promise it
    returns is rejected with the error of [kernel.start] when the kernel
    does not start, rejected with a session-disposed error when the
    session has no kernel, and otherwise settles as the silent
    execution does; the code is sent for silent execution exactly when
    the kernel started and the session has a kernel. *)
Theorem executeHidden_outcome (w : World) (s : State) (code : string) :
  let r := run (executeHidden w code) s in
  ∃ p,
    result r = Fulfilled p ∧
    settles p =
      match start w NoArgument with
      | Fulfilled session =>
          if session_kernel w session
          then executeSilently w session code
          else Rejected "SessionDisposedError"
      | Rejected e => Rejected e
      end ∧
    (∀ session c,
       Invoked (ExecuteSilently session c) ∈ pending p ↔
       c = code ∧ start w NoArgument = Fulfilled session ∧
       session_kernel w session = true) ∧
    queues (state_after r) = queues s ∧
    documentExecutions (state_after r) = documentExecutions s ∧
    closeListeners (state_after r) = closeListeners s.
Proof.
  cbn zeta. unfold executeHidden. async_eval.
  destruct (start w NoArgument) as [x|e]; cbn;
    [destruct (session_kernel w x) eqn:Hk; cbn;
     [destruct (executeSilently w x code) as [[]|e']; cbn|]|];
    decided; eexists; (split; [reflexivity|]); cbn;
    (split; [done|]); (split; [|done]).
  all: intros session c; split;
    [intros Hin; not_in_list Hin|intros (-> & Hs & Hk')].
  all: try (injection Hs as ->); try congruence; try done; in_list.
Qed.

(** ** More on the entry point for code *)

(** X10.  Third-party code is queued at once: [executeCode] creates
    the queued execution and subscribes to it before the restart of the
    kernel has been waited for, and whether or not the kernel then
    starts.  The kernel is started only after the restart has ended
    well, with [StartOptions(false, isPostInitializedInProgress)] for
    third-party code and [DisplayOptions(true)] for the built-in
    extensions; the queueing log line is written for every extension
    but the Jupyter extension itself. *)
Theorem executeCode_sequence
    (w : World) (JVSC_EXTENSION_ID POWER_TOYS_EXTENSION_ID : string)
    (s : State) (code extensionId : string) :
  let r := begin (executeCode_begin w JVSC_EXTENSION_ID POWER_TOYS_EXTENSION_ID
                    code extensionId) s in
  let restarted := is_fulfilled (restarting w) in
  let subscriptions x :=
    [Did (Subscribed x "result.finally");
     Did (Subscribed x "createDeferredFromPromise(result)");
     Did (Subscribed x "onRequestSent");
     Did (Subscribed x "onRequestAcknowledged");
     Did (Subscribed x "onDidEmitOutput");
     Did (Subscribed x "token.onCancellationRequested")] in
  (extensionId ≠ JVSC_EXTENSION_ID → extensionId ≠ POWER_TOYS_EXTENSION_ID →
   ∃ q,
     let a := StartOptions false (isPostInitializedInProgress w) in
     let x := queueCode q code extensionId in
     events r =
       [Did (Created x); Did (Log "Queue code")] ++ subscriptions x ++
       [Settled Restarting restarted] ++
       (if restarted
        then [Invoked (Start a); Settled (Start a) (is_fulfilled (start w a))]
        else [])) ∧
  (extensionId = JVSC_EXTENSION_ID ∨ extensionId = POWER_TOYS_EXTENSION_ID →
   let a := DisplayOptions true in
   let x := fromCode code extensionId in
   events r =
     [Did (Created x)] ++
     (if bool_decide (extensionId = JVSC_EXTENSION_ID) then []
      else [Did (Log "Queue code")]) ++
     subscriptions x ++
     [Settled Restarting restarted] ++
     (if restarted
      then [Invoked (Start a); Settled (Start a) (is_fulfilled (start w a))]
           ++ match start w a with
              | Fulfilled session => [Did (StartExecution x session)]
              | Rejected _ => []
              end
      else [])).
Proof.
  cbn zeta. unfold executeCode_begin. split.
  - intros H1 H2.
    rewrite (bool_decide_eq_false_2 _ H1), (bool_decide_eq_false_2 _ H2).
    rewrite (bool_decide_eq_true_2 _ H1).
    async_eval.
    destruct (restarting w) as [[]|e0]; cbn;
      [destruct (start w _) as [session|e1]; cbn|]; decided.
    all: match goal with
         | |- context [getOrCreateCellExecutionQueue ?a ?b ?c] =>
             destruct (getOrCreateCellExecutionQueue a b c) as [s' q]
         end; cbn.
    all: by exists q.
  - intros Hb.
    assert (bool_decide (extensionId = JVSC_EXTENSION_ID)
            || bool_decide (extensionId = POWER_TOYS_EXTENSION_ID) = true)
      as -> by (destruct Hb; repeat case_bool_decide; done).
    destruct (decide (extensionId = JVSC_EXTENSION_ID)) as [Hj|Hj].
    + rewrite (bool_decide_eq_true_2 _ Hj).
      rewrite bool_decide_eq_false_2 by (intros Hn; by apply Hn).
      async_eval.
      destruct (restarting w) as [[]|e0]; cbn;
        [destruct (start w _) as [session|e1]; cbn|]; decided; done.
    + rewrite (bool_decide_eq_false_2 _ Hj), (bool_decide_eq_true_2 _ Hj).
      async_eval.
      destruct (restarting w) as [[]|e0]; cbn;
        [destruct (start w _) as [session|e1]; cbn|]; decided; done.
Qed.

(** The theorem for third-party code while the kernel cannot start:
    the code is queued all the same. *)
Lemma executeCode_sequence_witness :
  ∃ q, Did (Created (queueCode q "1+1" "some.extension"))
       ∈ events (begin (executeCode_begin no_kernel_world "ms-toolsai.jupyter"
                          "ms-toolsai.vscode-jupyter-powertoys" "1+1"
                          "some.extension") busy_queue_state).
Proof.
  destruct (executeCode_sequence no_kernel_world "ms-toolsai.jupyter"
              "ms-toolsai.vscode-jupyter-powertoys" busy_queue_state
              "1+1" "some.extension") as [H _].
  destruct H as [q H]; [done|done|].
  exists q. rewrite H. in_list.
Defined.

(** ** getOrCreateCellExecutionQueue, twice *)

(** X11.  A queue that has just been constructed and was given no work
    is not reused: a second call for the same document, made before
    anything was queued, constructs another queue, different from the
    first.  The first stays where it was with its close listener, so
    that closing the document then cancels both. *)
Theorem getOrCreateCellExecutionQueue_twice
    (w : World) (s : State) (document : NotebookDocument)
    (sessionPromise1 sessionPromise2 : nat) :
  let r1 := getOrCreateCellExecutionQueue s document sessionPromise1 in
  let r2 := getOrCreateCellExecutionQueue (fst r1) document sessionPromise2 in
  (snd r1 ∉ dom (queues s)) →
  snd r2 ≠ snd r1 ∧
  documentExecutions (fst r2) !! document = Some (snd r2) ∧
  queues (fst r2) !! snd r1 = Some (new_CellExecutionQueue sessionPromise1) ∧
  queues (fst r2) !! snd r2 = Some (new_CellExecutionQueue sessionPromise2) ∧
  closeListeners (fst r2) =
    closeListeners s ++ [(document, snd r1); (document, snd r2)] ∧
  Invoked (Cancel (snd r1) (Some true))
    ∈ events (run (closeListener w document (snd r1) document) (fst r2)) ∧
  Invoked (Cancel (snd r2) (Some true))
    ∈ events (run (closeListener w document (snd r2) document) (fst r2)).
Proof.
  cbn zeta.
  destruct (getOrCreateCellExecutionQueue s document sessionPromise1)
    as [s1 q1] eqn:H1.
  unfold getOrCreateCellExecutionQueue in H1. cbn [fst snd].
  destruct (can_be_used s (documentExecutions s !! document)) as [q0|] eqn:Hc.
  { injection H1 as <- <-. intros Hnew.
    apply can_be_used_Some in Hc as (_ & o & Hq & _).
    destruct Hnew. apply elem_of_dom. by eexists. }
  intros _. injection H1 as <- <-.
  set (q1 := fresh (dom (queues s))).
  unfold getOrCreateCellExecutionQueue, can_be_used. cbn.
  rewrite !lookup_insert_eq. cbn.
  set (q2 := fresh (dom (<[q1:=new_CellExecutionQueue sessionPromise1]>
                           (queues s)))).
  assert (q2 ≠ q1) as Hne.
  { intros Heq.
    pose proof (is_fresh (dom (<[q1:=new_CellExecutionQueue sessionPromise1]>
                                 (queues s)))) as Hf.
    fold q2 in Hf. rewrite Heq in Hf. apply Hf.
    rewrite dom_insert. set_solver. }
  split; [done|]. split; [apply lookup_insert_eq|].
  split; [rewrite lookup_insert_ne by done; apply lookup_insert_eq|].
  split; [apply lookup_insert_eq|].
  split; [by rewrite <-app_assoc|].
  unfold closeListener. rewrite !bool_decide_eq_true_2 by done.
  async_eval.
  rewrite lookup_insert_eq, lookup_insert_ne, lookup_insert_eq by done. cbn.
  split; destruct (cancel w _ _); cbn; in_list.
Qed.

(** The theorem for the first two calls for document 1. *)
Lemma getOrCreateCellExecutionQueue_twice_witness :
  snd (getOrCreateCellExecutionQueue
         (fst (getOrCreateCellExecutionQueue (constructor quiet_world 1) 1 0))
         1 1)
  ≠ snd (getOrCreateCellExecutionQueue (constructor quiet_world 1) 1 0).
Proof.
  destruct (getOrCreateCellExecutionQueue_twice quiet_world
              (constructor quiet_world 1) 1 0 1) as (H & _).
  - intros Hin. apply elem_of_dom in Hin as [o Ho].
    vm_compute in Ho. discriminate Ho.
  - exact H.
Defined.

(** ** More on the loop of [executeCode] *)

Section GeneratorMore.

Import Generator GeneratorNotions.

(** Every shape of a consistent state, one by one. *)
Ltac gen_shapes g :=
  let outs := fresh "outs" in
  let ctl := fresh "ctl" in
  let comp := fresh "comp" in
  let res := fresh "res" in
  let dn := fresh "dn" in
  let req := fresh "req" in
  let Hc := fresh "Hc" in
  let Hs := fresh "Hs" in
  let Hd := fresh "Hd" in
  let Hctl := fresh "Hctl" in
  destruct g as [outs comp res dn ? ? ctl req ? ?];
  unfold consistent, in_flight, taken, ends_by_break; cbn;
  intros (Hc & Hs & Hd & Hctl); subst;
  unfold on_next, on_resume, continue; cbn;
  destruct comp; cbn in *;
  destruct res as [[]|]; cbn in *;
  try (by destruct Hc as [? ?]);
  destruct dn as [[]|]; cbn in *;
  try (by destruct (Hd _ eq_refl) as [? ?]);
  destruct ctl as [[[]|]| | |]; cbn in *;
  destruct outs as [|? outs]; cbn in *;
  try (destruct req as [|[|req]]; cbn in *).

Lemma after_snoc ins i : after (ins ++ [i]) = react (after ins) i.
Proof. unfold after. by rewrite foldl_app. Qed.

Lemma after_consistent ins : consistent (after ins).
Proof. apply foldl_react_consistent, first_next_consistent. Qed.

Lemma nexts_snoc ins i :
  nexts (ins ++ [i]) = (nexts ins + if i is next then 1 else 0)%nat.
Proof.
  induction ins as [|j ins IH]; cbn; [by destruct i|].
  destruct j; cbn; rewrite IH; lia.
Qed.

Lemma react_requests g i :
  consistent g →
  (length (yielded (react g i)) + requests (react g i)
   ≤ length (yielded g) + requests g + if i is next then 1 else 0)%nat.
Proof.
  revert i. intros [e|ok| | | |ks]; revert g; intros g; cbn.
  - gen_shapes g; lia.
  - gen_shapes g; lia.
  - gen_shapes g; lia.
  - gen_shapes g; lia.
  - gen_shapes g; rewrite ?length_app; cbn; intuition lia.
  - gen_shapes g; rewrite ?length_app; cbn; intuition lia.
Qed.

(** X12.  The generator takes a delta out of the buffer only for a
    [next()] call that is waiting for it: however many deltas were
    emitted, the deltas handed over or held inside [yield] are never
    more than the [next()] calls made, the one that started the
    generator included. *)
Theorem generator_yields_on_request (ins : list Input) :
  (length (taken (after ins)) ≤ 1 + nexts ins)%nat.
Proof.
  assert (length (yielded (after ins)) + requests (after ins)
          ≤ 1 + nexts ins)%nat as H.
  { induction ins as [|i ins IH] using rev_ind; [cbn; lia|].
    rewrite after_snoc, nexts_snoc.
    pose proof (react_requests (after ins) i (after_consistent ins)). lia. }
  pose proof (after_consistent ins) as (_ & _ & _ & Hctl).
  unfold taken, in_flight. rewrite length_app.
  destruct (control (after ins)) as [[[]|]| | |]; cbn; lia.
Qed.

(** An input leaves what was taken and tracked alone, or the generator
    takes one delta and tracks it under the session of this iteration,
    when there is one. *)
Lemma react_taken g i :
  consistent g →
  (taken (react g i) = taken g ∧ tracked (react g i) = tracked g) ∨
  (∃ x, taken (react g i) = taken g ++ [x] ∧
        control (react g i) = Yielding x ∧
        tracked (react g i) =
          tracked g ++
          match session (react g i) with
          | Some session => [(session, x)]
          | None => []
          end).
Proof.
  revert i. intros [e|ok| | | |ks]; revert g; intros g; cbn.
  - gen_shapes g; rewrite ?app_nil_r; auto.
  - gen_shapes g; rewrite ?app_nil_r; auto.
  - gen_shapes g; rewrite ?app_nil_r; auto.
  - gen_shapes g; rewrite ?app_nil_r; auto.
  - gen_shapes g; rewrite ?app_nil_r; auto; right; eexists;
      (split; [reflexivity|split; [reflexivity|]]);
      repeat case_match; by rewrite ?app_nil_r.
  - gen_shapes g; rewrite ?app_nil_r; auto;
      right; eexists;
      (split; [reflexivity|split; [reflexivity|]]);
      repeat case_match; by rewrite ?app_nil_r.
Qed.

(** While the kernel has a session at every resumption, the generator
    holds one whenever it is at a [yield]. *)
Lemma react_session g i :
  consistent g →
  (if i is resume None then False else True) →
  (match control g with
   | Yielding _ | SuspendedYield => is_Some (session g)
   | _ => True
   end) →
  match control (react g i) with
  | Yielding _ | SuspendedYield => is_Some (session (react g i))
  | _ => True
  end.
Proof.
  revert i. intros [e|ok| | | |[x|]]; revert g; intros g; cbn; try done.
  - gen_shapes g; auto.
  - gen_shapes g; auto.
  - gen_shapes g; auto.
  - gen_shapes g; auto.
  - gen_shapes g; auto.
  - gen_shapes g; auto; intros; by eexists.
Qed.

(** X13.  [trackDisplayDataForExtension] is called for the deltas the
    generator takes out of the buffer, in their order and at most once
    each, and never for another; when the kernel has a session every
    time the generator is resumed, it is called for every one of them,
    before the delta is handed over. *)
Theorem generator_tracks_what_it_yields (ins : list Input) :
  let g := after ins in
  (snd <$> tracked g) `sublist_of` taken g ∧
  (session_present ins = true → snd <$> tracked g = taken g).
Proof.
  cbn zeta. split.
  - induction ins as [|i ins IH] using rev_ind; [done|].
    rewrite after_snoc.
    destruct (react_taken (after ins) i (after_consistent ins))
      as [[-> ->]|(x & -> & _ & ->)]; [done|].
    rewrite fmap_app. destruct (session _); cbn.
    + by apply sublist_app.
    + rewrite app_nil_r. by apply sublist_inserts_r.
  - intros Hp.
    assert (snd <$> tracked (after ins) = taken (after ins) ∧
            match control (after ins) with
            | Yielding _ | SuspendedYield => is_Some (session (after ins))
            | _ => True
            end) as [H _]; [|done].
    induction ins as [|i ins IH] using rev_ind; [done|].
    unfold session_present in Hp. rewrite forallb_app in Hp.
    apply andb_true_iff in Hp as [Hp Hi]. cbn in Hi.
    destruct (IH Hp) as [IHt IHs].
    rewrite after_snoc.
    assert (if i is resume None then False else True) as Hi'
      by (by destruct i as [| | | | |[]]).
    pose proof (react_session (after ins) i (after_consistent ins) Hi' IHs)
      as Hs.
    split; [|done].
    destruct (react_taken (after ins) i (after_consistent ins))
      as [[-> ->]|(x & -> & Hc & ->)]; [done|].
    rewrite Hc in Hs. destruct Hs as [y ->].
    by rewrite fmap_app, IHt.
Qed.

(** The theorem for two deltas, the kernel having session 3. *)
Lemma generator_tracks_what_it_yields_witness :
  snd <$> tracked (after [onDidEmitOutput 1; onDidEmitOutput 2;
                          resume (Some 3); next; resume (Some 3)])
  = [1; 2].
Proof.
  destruct (generator_tracks_what_it_yields
              [onDidEmitOutput 1; onDidEmitOutput 2;
               resume (Some 3); next; resume (Some 3)]) as [_ H].
  rewrite H; reflexivity.
Defined.

Lemma react_ends_by_break g i :
  consistent g → ends_by_break g → ends_by_break (react g i).
Proof.
  revert i. intros [e|ok| | | |ks]; revert g; intros g; cbn.
  - gen_shapes g; intuition (try done; try (by eexists)).
  - gen_shapes g; intuition (try done; try (by eexists)).
  - gen_shapes g; intuition (try done; try (by eexists)).
  - gen_shapes g; intuition (try done; try (by eexists)).
  - gen_shapes g; intuition (try done; try (by eexists)).
  - gen_shapes g; intuition (try done; try (by eexists)).
Qed.

Lemma foldl_react_ends_by_break ins g :
  consistent g → ends_by_break g → ends_by_break (foldl react g ins).
Proof.
  revert g. induction ins as [|i ins IH]; intros g Hg Hb; [done|].
  cbn. apply IH; [by apply react_consistent|by apply react_ends_by_break].
Qed.

Lemma pull_completed k g returned :
  consistent g →
  control g = Completed returned →
  foldl react g (pull k) = g.
Proof.
  intros Hg Hc. induction k as [|k IH]; [done|].
  rewrite pull_S.
  assert (react (react (react (react g finally_reaction) done_reaction)
                   (resume None)) next = g) as ->; [|done].
  destruct g as [outs comp res dn sub ses ctl req yld trk].
  destruct Hg as (_ & _ & Hd & Hctl). cbn in *. subst ctl.
  destruct Hctl as (_ & [ok ->] & _).
  destruct (Hd ok eq_refl) as [-> ->]. done.
Qed.

(** X14.  The rejection of the result promise reaches the consumer
    only when, at the time [done] is rejected, the generator waits at
    the race with nothing received since it last emptied the buffer:
    then its next resumption throws.  In any other place (at a [yield],
    or about to resume after an emission, be it one that came between
    the rejection and the reactions to it) the generator hands over
    what is left and leaves the loop by [break], so the consumer sees a
    normal end and the rejection is lost.  Either way every delta
    received is handed over. *)
Theorem generator_reports_rejection_only_when_idle (ins : list Input) :
  let g := after ins in
  result_result g = Some false →
  done g = None →
  (control g = AwaitingRace None →
   ∀ k, control (after (ins ++ pull (S k))) = Completed false ∧
        yielded (after (ins ++ pull (S k))) = emitted ins) ∧
  (control g ≠ AwaitingRace None →
   ∃ k, control (after (ins ++ pull k)) = Completed true ∧
        yielded (after (ins ++ pull k)) = emitted ins).
Proof.
  cbn zeta. intros Hres Hd.
  pose proof (after_consistent ins) as Hg.
  assert (∀ k, after (ins ++ pull k) = foldl react (after ins) (pull k))
    as Heq.
  { intros k. unfold after. by rewrite foldl_app. }
  assert (∀ k, stream (after (ins ++ pull k)) = emitted ins) as Hstream.
  { intros k. unfold after.
    rewrite foldl_react_stream by apply first_next_consistent.
    change (heard false (ins ++ pull k) = emitted ins).
    apply heard_app_pull. }
  set (g4 := react (react (react (react (after ins) finally_reaction)
                             done_reaction) (resume None)) next).
  assert (consistent g4) as Hg4 by (by do 4 apply react_consistent).
  assert (∀ k returned,
            control (after (ins ++ pull k)) = Completed returned →
            yielded (after (ins ++ pull k)) = emitted ins) as Hyield.
  { intros k returned Hc. specialize (Hstream k).
    pose proof (after_consistent (ins ++ pull k)) as (_ & _ & _ & Hctl).
    rewrite Hc in Hctl. destruct Hctl as (Ho & _).
    unfold stream, in_flight in Hstream.
    by rewrite Hc, Ho, !app_nil_r in Hstream. }
  split.
  - intros Hc k.
    assert (control g4 = Completed false) as Hc4.
    { unfold g4. destruct (after ins) as [outs comp res dn sub ses ctl req yld trk].
      cbn in *. subst. destruct comp; done. }
    assert (control (after (ins ++ pull (S k))) = Completed false) as Hck.
    { rewrite Heq, pull_S. fold g4. by rewrite (pull_completed _ _ _ Hg4 Hc4). }
    split; [done|]. by eapply Hyield.
  - intros Hc.
    set (g2 := react (react (after ins) finally_reaction) done_reaction).
    assert (consistent g2) as Hg2 by (by do 2 apply react_consistent).
    assert (ends_by_break g2) as Hb2.
    { unfold g2, ends_by_break.
      destruct Hg as (_ & _ & Hdn & Hctl).
      destruct (after ins) as [outs comp res dn sub ses ctl req yld trk].
      cbn in *. subst.
      destruct comp; cbn; (split; [by eexists|]);
        destruct ctl as [[[]|]| | |returned]; cbn; try done;
        by destruct Hctl as (_ & Hx & _); try destruct Hx. }
    assert (ends_by_break g4) as Hb4.
    { unfold g4. fold g2.
      apply react_ends_by_break; [by apply react_consistent|].
      by apply react_ends_by_break. }
    destruct (pull_drains _ g4 Hg4 (le_n _)) as (k & Hk & Hrk).
    exists (S k). rewrite Heq, pull_S. fold g4.
    set (g5 := foldl react g4 (pull k)) in *.
    assert (consistent g5) as Hg5 by by apply foldl_react_consistent.
    assert (ends_by_break g5) as Hb5 by by apply foldl_react_ends_by_break.
    destruct (no_fuel g5 Hg5 Hk) as (_ & _ & Hend).
    destruct Hb5 as [[ok Hsome] Hb5].
    destruct Hg5 as (_ & _ & Hdn5 & _).
    destruct (Hdn5 _ Hsome) as [_ Hres5].
    destruct Hend as [returned Hret]; [by eexists|].
    rewrite Hret in Hb5. destruct returned; [|done].
    split; [done|].
    specialize (Hyield (S k) true). rewrite Heq, pull_S in Hyield.
    fold g4 g5 in Hyield. by apply Hyield.
Qed.

(** The theorem for a rejection that finds the generator waiting, and a
    delta emitted before the reactions to the rejection run: the
    generator ends by [break]. *)
Lemma generator_reports_rejection_only_when_idle_witness :
  ∃ k, control (after ([result_settles false; onDidEmitOutput 1]
                       ++ pull k)) = Completed true.
Proof.
  destruct (generator_reports_rejection_only_when_idle
              [result_settles false; onDidEmitOutput 1])
    as [_ H]; [reflexivity|reflexivity|].
  destruct H as (k & H & _); [discriminate|].
  exists k. exact H.
Defined.

End GeneratorMore.

(** ** isSelfCertsError *)

Lemma append_nil_l (s : string) : (""%string +:+ s = s)%string.
Proof. done. Qed.

Lemma append_cons a (s t : string) :
  (String a s +:+ t = String a (s +:+ t))%string.
Proof. done. Qed.

Lemma prefix_append (pattern s : string) :
  String.prefix pattern s = true ↔ ∃ suffix, s = (pattern +:+ suffix)%string.
Proof.
  revert s. induction pattern as [|a pattern IH]; intros s.
  - split; [intros _; by exists s|]. intros _. by destruct s.
  - destruct s as [|b s]; cbn.
    + split; [done|]. intros [suffix H]. by rewrite append_cons in H.
    + destruct (Ascii.ascii_dec a b) as [->|Hne].
      * rewrite IH. split; intros [suffix H]; exists suffix;
          rewrite append_cons in *; congruence.
      * split; [done|]. intros [suffix H]. rewrite append_cons in H.
        congruence.
Qed.

Lemma index_includes (pattern message : string) :
  pattern ≠ ""%string →
  is_Some (String.index 0 pattern message) ↔
  ∃ before after,
    message = (before +:+ pattern +:+ after)%string.
Proof.
  intros Hp. induction message as [|b message IH].
  - cbn. destruct pattern as [|a pattern]; [done|].
    split; [by intros [? [=]]|].
    intros (before & after & H).
    destruct before; rewrite ?append_nil_l, ?append_cons in H; done.
  - cbn [String.index].
    destruct (String.prefix pattern (String b message)) eqn:Hpre.
    + split; [|by eexists]. intros _.
      apply prefix_append in Hpre as [suffix ->]. by exists ""%string, suffix.
    + split.
      * destruct (String.index 0 pattern message) as [n|] eqn:Hi;
          [|by intros [? [=]]].
        intros _. destruct (proj1 IH) as (before & after & ->); [by eexists|].
        by exists (String b before), after.
      * intros (before & after & H).
        destruct before as [|c before];
          rewrite ?append_nil_l, ?append_cons in H.
        -- assert (String.prefix pattern (String b message) = true)
             by (apply prefix_append; by exists after).
           congruence.
        -- injection H as -> ->.
           destruct (proj2 IH) as [n ->]; [by exists before, after|].
           by eexists.
Qed.

(** X15.  [isSelfCertsError] holds exactly of an error that has a
    message in which one of the four certificate texts occurs, anywhere;
    an undefined error, and an error with no message, is not one. *)
Theorem isSelfCertsError_spec (err : option (option string)) :
  isSelfCertsError err = true ↔
  ∃ message text before after,
    err = Some (Some message) ∧
    text ∈ self_cert_texts ∧
    message = (before +:+ text +:+ after)%string.
Proof.
  assert (∀ message text, text ≠ ""%string →
            includes message text = true ↔
            ∃ before after, message = (before +:+ text +:+ after)%string)
    as Hinc.
  { intros message text Ht. rewrite <-index_includes by done.
    unfold includes. destruct (String.index 0 text message).
    - split; [by eexists|done].
    - split; [done|by intros [? [=]]]. }
  unfold isSelfCertsError. cbn zeta.
  rewrite !orb_true_iff, !Hinc by done.
  split.
  - intros H.
    destruct err as [[message|]|]; cbn in H.
    + exists message.
      destruct H as [[[(b & a & ->)|(b & a & ->)]|(b & a & ->)]|(b & a & ->)];
        eexists _, b, a; (split; [done|]); (split; [|done]);
        unfold self_cert_texts; set_solver.
    + destruct H as [[[(b & a & H)|(b & a & H)]|(b & a & H)]|(b & a & H)];
        destruct b; rewrite ?append_nil_l, ?append_cons in H; done.
    + destruct H as [[[(b & a & H)|(b & a & H)]|(b & a & H)]|(b & a & H)];
        destruct b; rewrite ?append_nil_l, ?append_cons in H; done.
  - intros (message & text & b & a & -> & Hin & ->). cbn.
    unfold self_cert_texts in Hin.
    repeat (apply elem_of_cons in Hin as [->|Hin]);
      [| | | |by apply elem_of_nil in Hin]; eauto 10.
Qed.

(** The theorem for the message of a real failure. *)
Lemma isSelfCertsError_spec_witness :
  isSelfCertsError
    (Some (Some "request failed, reason: self signed certificate in chain"))
  = true.
Proof.
  apply isSelfCertsError_spec.
  exists "request failed, reason: self signed certificate in chain"%string,
    "reason: self signed certificate"%string, "request failed, "%string,
    " in chain"%string.
  split; [reflexivity|]. split; [|reflexivity].
  unfold self_cert_texts. left.
Defined.

(** ** Queues that were replaced *)

Lemma records_refl s : records_new_queues_only s s.
Proof. split; [apply grows_refl|auto]. Qed.

Lemma records_trans s1 s2 s3 :
  records_new_queues_only s1 s2 → records_new_queues_only s2 s3 →
  records_new_queues_only s1 s3.
Proof.
  intros [G12 H12] [G23 H23]. split; [by eapply grows_trans|].
  intros d q H3. destruct (H23 d q H3) as [H2|H2]; [by apply H12|].
  right. intros Hq. apply H2.
  destruct G12 as (_ & _ & _ & _ & Hdom & _). by apply Hdom.
Qed.

Lemma records_getOrCreate s document sessionPromise :
  records_new_queues_only s
    (fst (getOrCreateCellExecutionQueue s document sessionPromise)).
Proof.
  split; [apply grows_getOrCreate|].
  unfold getOrCreateCellExecutionQueue.
  destruct (can_be_used _ _); cbn; [auto|].
  intros d q. destruct (decide (d = document)) as [->|Hne].
  - rewrite lookup_insert_eq. intros [= <-]. right. apply is_fresh.
  - rewrite lookup_insert_ne by done. auto.
Qed.

Lemma records_hookup w :
  respects records_new_queues_only (hookupIOPubHandler w).
Proof.
  intros f. split; [apply grows_hookup|].
  unfold hookupIOPubHandler. async_unfold. cbn.
  destruct (session w) as [x|]; cbn; [|auto].
  case_bool_decide; cbn; auto.
Qed.

Lemma records_step w J P s op : records_new_queues_only s (step w J P s op).
Proof.
  apply respects_step.
  - apply records_refl.
  - apply records_trans.
  - intros s'. split; [apply grows_new_promise|auto].
  - apply records_getOrCreate.
  - intros n s'. split; [apply grows_count|auto].
  - apply records_hookup.
Qed.

(** X16.  A queue that is no longer the one recorded for a document
    never becomes it again: whatever operations follow and whatever the
    queues do, the document keeps getting either the queue it has or
    one newly constructed. *)
Theorem stale_queue_is_never_recorded_again
    (JVSC_EXTENSION_ID POWER_TOYS_EXTENSION_ID : string)
    (s s' : State) (document : NotebookDocument) (q : QueueRef) :
  later JVSC_EXTENSION_ID POWER_TOYS_EXTENSION_ID s s' →
  q ∈ dom (queues s) →
  documentExecutions s !! document ≠ Some q →
  documentExecutions s' !! document ≠ Some q.
Proof.
  intros Hl Hq Hd.
  assert (q ∈ dom (queues s') ∧ documentExecutions s' !! document ≠ Some q)
    as [_ H]; [|done].
  induction Hl as [s|w s s' op Hl IH|s s' s'' Hl IH Ha].
  - done.
  - destruct (IH Hq Hd) as [IHq IHd].
    destruct (records_step w JVSC_EXTENSION_ID POWER_TOYS_EXTENSION_ID s' op)
      as [Hg Hr].
    split.
    + destruct Hg as (_ & _ & _ & _ & Hdom & _). by apply Hdom.
    + intros H. by destruct (Hr document q H).
  - destruct (IH Hq Hd) as [IHq IHd].
    destruct Ha as (_ & Hde & _ & _ & _ & _ & _ & Hdom & _).
    by rewrite Hde, Hdom.
Qed.

(** The theorem for the first queue of document 1 after it was
    replaced. *)
Lemma stale_queue_is_never_recorded_again_witness :
  documentExecutions
    (step quiet_world "ms-toolsai.jupyter" "ms-toolsai.vscode-jupyter-powertoys"
       (fst (getOrCreateCellExecutionQueue idle_queue_state 1 9))
       (call_executeCode "1+1" "some.extension")) !! 1
  ≠ Some 0.
Proof.
  apply (stale_queue_is_never_recorded_again "ms-toolsai.jupyter"
           "ms-toolsai.vscode-jupyter-powertoys"
           (fst (getOrCreateCellExecutionQueue idle_queue_state 1 9))).
  - apply later_step, later_now.
  - apply elem_of_dom. eexists. by vm_compute.
  - intros Heq. vm_compute in Heq. discriminate Heq.
Defined.

(** ** Closing a document *)

Lemma closeListener_calls w s document q e c :
  Invoked c ∈ events (run (closeListener w document q e) s) →
  c = Cancel q (Some true) ∧ e = document.
Proof.
  unfold closeListener. case_bool_decide as He; async_eval.
  - destruct (queues s !! q) as [o|]; cbn.
    + destruct (negb (failed o) || negb (isEmpty o)); cbn;
        try destruct (cancel w q (Some true)); cbn;
        intros Hin; not_in_list Hin.
    + intros Hin; not_in_list Hin.
  - intros Hin; not_in_list Hin.
Qed.

Lemma cancellations_at_most_one w s e q
    (l : list (NotebookDocument * QueueRef)) :
  NoDup (snd <$> l) →
  (length (filter (fun t => Invoked (Cancel q (Some true)) ∈ t)
             ((fun l => events (run (closeListener w (fst l) (snd l) e) s))
                <$> l)) ≤ 1)%nat ∧
  (q ∉ snd <$> l →
   filter (fun t => Invoked (Cancel q (Some true)) ∈ t)
     ((fun l => events (run (closeListener w (fst l) (snd l) e) s)) <$> l)
   = []).
Proof.
  induction l as [|[d q'] l IH]; intros Hn; [cbn; split; [lia|done]|].
  rewrite fmap_cons in Hn. apply NoDup_cons in Hn as [Hq' Hn].
  destruct (IH Hn) as [IH1 IH2]. cbn [fmap list_fmap fst snd].
  rewrite !filter_cons. cbn [fst snd].
  destruct (decide (Invoked (Cancel q (Some true))
                    ∈ events (run (closeListener w d q' e) s))) as [Hin|Hin].
  - apply closeListener_calls in Hin as [[= ->] _].
    split; [cbn; rewrite (IH2 Hq'); cbn; lia|].
    intros Hnot. destruct Hnot. cbn. left.
  - split; [done|]. intros Hnot. apply IH2.
    intros Hq. apply Hnot. cbn. by right.
Qed.

(** X17.  When a document is closed, a queue of a running object is
    cancelled by at most one listener, and by none unless it was
    constructed for that very document: closing one document leaves the
    queues of the others alone. *)
Theorem closing_cancels_each_queue_once
    (w : World) (JVSC_EXTENSION_ID POWER_TOYS_EXTENSION_ID : string)
    (s : State) (e : NotebookDocument) (q : QueueRef) :
  running JVSC_EXTENSION_ID POWER_TOYS_EXTENSION_ID s →
  (length (cancellations w s e q) ≤ 1)%nat ∧
  (cancellations w s e q ≠ [] → (e, q) ∈ closeListeners s).
Proof.
  intros Hr. apply running_well_formed_inv in Hr as (_ & _ & Hn).
  unfold cancellations, onDidCloseNotebookDocument.
  split; [by apply cancellations_at_most_one|].
  intros Hne.
  destruct (filter _ _) as [|t ts] eqn:Hf; [done|].
  assert (t ∈ filter (fun t => Invoked (Cancel q (Some true)) ∈ t)
            ((fun l => events (run (closeListener w (fst l) (snd l) e) s))
               <$> closeListeners s)) as Ht by (rewrite Hf; left).
  apply list_elem_of_filter in Ht as [Hin Ht].
  apply list_elem_of_fmap in Ht as ([d q'] & -> & Hl).
  apply closeListener_calls in Hin as [[= ->] ->]. done.
Qed.

(** The theorem after a first piece of third-party code, when
    document 1 is closed. *)
Lemma closing_cancels_each_queue_once_witness :
  (length
     (cancellations quiet_world
        (step quiet_world "ms-toolsai.jupyter"
           "ms-toolsai.vscode-jupyter-powertoys"
           (constructor quiet_world 1)
           (call_executeCode "1+1" "some.extension")) 1 0) ≤ 1)%nat.
Proof.
  destruct (closing_cancels_each_queue_once quiet_world "ms-toolsai.jupyter"
              "ms-toolsai.vscode-jupyter-powertoys"
              (step quiet_world "ms-toolsai.jupyter"
                 "ms-toolsai.vscode-jupyter-powertoys"
                 (constructor quiet_world 1)
                 (call_executeCode "1+1" "some.extension")) 1 0) as [H _].
  - apply running_step, running_constructor.
  - exact H.
Defined.
